(** * Gemini chat client: the streaming message-append state machine

    A shallow embedding of [src/index.tsx] (the [App] component): the five
    cells of React state, the [initChat] effect, the scroll effect and the
    [handleSendMessage] handler, written in a small monad that threads the
    component, reads the clock, raises and catches exceptions and records
    the component after every state-setter call.

    What is modelled of the runtime:
    - a handler runs in the render that shows the current state: the
      [userInput], [isLoading] and [chat] of its closure are those of the
      world it starts in;
    - a setter call takes effect when it is made, and an updater function
      is applied to the history of that moment; the component after the
      call is recorded, so that "after the n-th chunk" is a state of the
      run;
    - the effect with dependency [[chatHistory]] runs after every commit
      of a new history array;
    - a response stream yields finitely many chunks and then completes
      or raises.

    Strings are the UTF-8 bytes of the JavaScript strings.  The remote
    service, the clock and the browser's layout are oracles of the
    environment [Env]: every theorem quantifies over them. *)

From Stdlib Require Import ZArith Ascii String List Lia.
From stdpp Require Import base option list strings pretty.

Local Open Scope string_scope.
Local Open Scope Z_scope.
Local Open Scope list_scope.

(** ** JavaScript strings *)

Module JS.

Definition bytes (codes : list nat) : string :=
  string_of_list_ascii (map ascii_of_nat codes).

(** [WhiteSpace] and [LineTerminator] of ECMAScript, the code points that
    [String.prototype.trim] strips, as UTF-8 byte sequences. *)
Definition whitespace : list string :=
  map bytes
    [ [9]; [10]; [11]; [12]; [13]; [32];       (* TAB LF VT FF CR SP *)
      [194; 160];                               (* U+00A0 *)
      [225; 154; 128];                          (* U+1680 *)
      [226; 128; 128]; [226; 128; 129]; [226; 128; 130]; [226; 128; 131];
      [226; 128; 132]; [226; 128; 133]; [226; 128; 134]; [226; 128; 135];
      [226; 128; 136]; [226; 128; 137]; [226; 128; 138]; (* U+2000-200A *)
      [226; 128; 168]; [226; 128; 169];         (* U+2028 U+2029 *)
      [226; 128; 175];                          (* U+202F *)
      [226; 129; 159];                          (* U+205F *)
      [227; 128; 128];                          (* U+3000 *)
      [239; 187; 191] ]%nat.                    (* U+FEFF *)

(** [strip_prefix p s] is [Some r] when [s = p ++ r]. *)
Fixpoint strip_prefix (p s : string) : option string :=
  match p, s with
  | EmptyString, _ => Some s
  | String a p', String b s' =>
      if Ascii.eqb a b then strip_prefix p' s' else None
  | String _ _, EmptyString => None
  end.

Fixpoint strip_first (table : list string) (s : string) : option string :=
  match table with
  | [] => None
  | p :: table' =>
      match strip_prefix p s with
      | Some r => Some r
      | None => strip_first table' s
      end
  end.

Fixpoint strip_all (table : list string) (fuel : nat) (s : string) : string :=
  match fuel with
  | O => s
  | S fuel' =>
      match strip_first table s with
      | Some r => strip_all table fuel' r
      | None => s
      end
  end.

Definition trimStart (s : string) : string :=
  strip_all whitespace (String.length s) s.

Definition trimEnd (s : string) : string :=
  String.rev (strip_all (map String.rev whitespace) (String.length s) (String.rev s)).

(** [s.trim()] *)
Definition trim (s : string) : string := trimEnd (trimStart s).

(** A continuation byte [10xxxxxx] of a UTF-8 sequence. *)
Definition is_continuation (a : ascii) : bool :=
  let n := nat_of_ascii a in (128 <=? n)%nat && (n <? 192)%nat.

Definition starts_with_continuation (s : string) : bool :=
  match s with
  | String a _ => is_continuation a
  | EmptyString => false
  end.

(** The code points of a string, in order: what [for (const char of s)]
    iterates over.  A lead byte takes the continuation bytes after it. *)
Fixpoint code_points (s : string) : list string :=
  match s with
  | EmptyString => []
  | String a r =>
      match code_points r with
      | g :: gs =>
          if starts_with_continuation g
          then String a g :: gs
          else String a EmptyString :: g :: gs
      | [] => [String a EmptyString]
      end
  end.

Fixpoint concat (l : list string) : string :=
  match l with
  | [] => EmptyString
  | s :: l' => s +:+ concat l'
  end.

(** [n.toString()] of an integral number. *)
Definition toString (n : Z) : string := pretty n.

End JS.

(** ** Data model *)

Inductive Role := user | model.

(** [interface Message] *)
Record Message := {
  id : string;
  role : Role;
  text : string;
}.

(** The handle returned by [ai.chats.create]: the session's configuration.
    What the session answers is the environment's [sendMessageStream]. *)
Record Chat := {
  chat_model : string;
  systemInstruction : string;
}.

Definition MODEL_NAME : string := "gemini-2.5-flash-preview-04-17".

Module GenerateContentResponse.
(** A chunk of the response stream; [text] is the string that
    [currentText += chunk.text] appends. *)
Record t := { text : string }.
End GenerateContentResponse.
Abbreviation Chunk := GenerateContentResponse.t.

(** How the iteration of a response stream ends after its chunks. *)
Inductive StreamEnd := Completes | Raises.

Record ResponseStream := {
  chunks : list Chunk;
  ending : StreamEnd;
}.

(** [await chat.sendMessageStream(...)]: the promise rejects or resolves to
    a stream. *)
Inductive SendOutcome := Rejects | Resolves (responseStream : ResponseStream).

(** The five [useState] cells of [App]. *)
Record AppState := {
  chat : option Chat;
  userInput : string;
  chatHistory : list Message;
  isLoading : bool;
  error : option string;
}.

(** [chatContainerRef.current] *)
Record Container := {
  scrollTop : Z;
  scrollHeight : Z;
}.

Record World := {
  app : AppState;
  container : option Container;
  clock_reads : nat;      (* calls of Date.now() so far *)
  requests : nat;         (* calls of chat.sendMessageStream so far *)
}.

Record Env := {
  Date_now : nat -> Z;                               (* the k-th reading of the clock *)
  chats_create : option Chat;                        (* None: creation throws *)
  sendMessageStream : nat -> string -> SendOutcome;  (* the k-th request *)
  layoutHeight : AppState -> Z;                      (* scroll height of the rendered thread *)
}.

(** The [useState] initial values. *)
Definition initial_app : AppState :=
  {| chat := None; userInput := ""; chatHistory := []; isLoading := false; error := None |}.

(** The component mounted with container [c], before [initChat] runs. *)
Definition mounted (c : Container) : World :=
  {| app := initial_app; container := Some c; clock_reads := 0; requests := 0 |}.

(** ** The handler monad *)

Inductive Completion (A : Type) := Returned (a : A) | Thrown.
Arguments Returned {A} a.
Arguments Thrown {A}.

(** The result of running a piece of handler code: how it completed, the
    world it left, and the world after each state-setter call, in order. *)
Record Outcome (A : Type) := {
  completion : Completion A;
  final : World;
  commits : list World;
}.
Arguments completion {A} o.
Arguments final {A} o.
Arguments commits {A} o.

Definition M (A : Type) : Type := World -> Outcome A.

Definition ret {A} (a : A) : M A :=
  fun w => {| completion := Returned a; final := w; commits := [] |}.

Definition throw {A} : M A :=
  fun w => {| completion := Thrown; final := w; commits := [] |}.

Definition bind {A B} (m : M A) (k : A -> M B) : M B :=
  fun w =>
    let o := m w in
    match completion o with
    | Returned a =>
        let o' := k a (final o) in
        {| completion := completion o'; final := final o';
           commits := commits o ++ commits o' |}
    | Thrown =>
        {| completion := Thrown; final := final o; commits := commits o |}
    end.

Notation "x <- m ;; k" := (bind m (fun x => k))
  (at level 100, m at next level, right associativity).
Notation "m ;; k" := (bind m (fun _ => k))
  (at level 100, right associativity).

(** [try { body } catch (e) { handler } finally { finalizer }] for a
    finalizer that completes normally. *)
Definition try_catch_finally (body handler finalizer : M unit) : M unit :=
  fun w =>
    let o := body w in
    match completion o with
    | Returned _ =>
        let f := finalizer (final o) in
        {| completion := Returned tt; final := final f;
           commits := commits o ++ commits f |}
    | Thrown =>
        let h := handler (final o) in
        let f := finalizer (final h) in
        {| completion := completion h; final := final f;
           commits := commits o ++ commits h ++ commits f |}
    end.

Definition get_app : M AppState :=
  fun w => {| completion := Returned (app w); final := w; commits := [] |}.

(** The states a run passes through: the one it starts from, then the one
    after each setter call. *)
Definition states {A} (m : M A) (w : World) : list World := w :: commits (m w).

(** ** React: state setters, rendering, the scroll effect *)

Definition with_chat (v : option Chat) (s : AppState) : AppState :=
  {| chat := v; userInput := userInput s; chatHistory := chatHistory s;
     isLoading := isLoading s; error := error s |}.
Definition with_userInput (v : string) (s : AppState) : AppState :=
  {| chat := chat s; userInput := v; chatHistory := chatHistory s;
     isLoading := isLoading s; error := error s |}.
Definition with_chatHistory (v : list Message) (s : AppState) : AppState :=
  {| chat := chat s; userInput := userInput s; chatHistory := v;
     isLoading := isLoading s; error := error s |}.
Definition with_isLoading (v : bool) (s : AppState) : AppState :=
  {| chat := chat s; userInput := userInput s; chatHistory := chatHistory s;
     isLoading := v; error := error s |}.
Definition with_error (v : option string) (s : AppState) : AppState :=
  {| chat := chat s; userInput := userInput s; chatHistory := chatHistory s;
     isLoading := isLoading s; error := v |}.

(** The effect with dependency [[chatHistory]]:
    [if (ref.current) ref.current.scrollTop = ref.current.scrollHeight]. *)
Definition scrollEffect (c : option Container) : option Container :=
  match c with
  | Some d => Some {| scrollTop := scrollHeight d; scrollHeight := scrollHeight d |}
  | None => None
  end.

Section Program.

Variable env : Env.

(** The browser lays the new render out: the container's scroll height
    follows the rendered state, its scroll position stays. *)
Definition layout (s : AppState) (c : option Container) : option Container :=
  match c with
  | Some d => Some {| scrollTop := scrollTop d; scrollHeight := layoutHeight env s |}
  | None => None
  end.

(** The world after a setter call on a cell other than [chatHistory]:
    the component re-renders; the dependency of the scroll effect is
    unchanged, so the effect does not run. *)
Definition put_cell (f : AppState -> AppState) (w : World) : World :=
  let s := f (app w) in
  {| app := s; container := layout s (container w);
     clock_reads := clock_reads w; requests := requests w |}.

(** The world after a new [chatHistory] array is committed: the component
    re-renders and the scroll effect runs.  Every call of
    [setChatHistory] in this program passes a fresh array. *)
Definition put_history (h : list Message) (w : World) : World :=
  let s := with_chatHistory h (app w) in
  {| app := s; container := scrollEffect (layout s (container w));
     clock_reads := clock_reads w; requests := requests w |}.

Definition emit (w : World) : Outcome unit :=
  {| completion := Returned tt; final := w; commits := [w] |}.

Definition set_cell (f : AppState -> AppState) : M unit :=
  fun w => emit (put_cell f w).

Definition setChat (v : option Chat) : M unit := set_cell (with_chat v).
Definition setUserInput (v : string) : M unit := set_cell (with_userInput v).
Definition setIsLoading (v : bool) : M unit := set_cell (with_isLoading v).
Definition setError (v : option string) : M unit := set_cell (with_error v).

Definition commit_chatHistory (h : list Message) : M unit :=
  fun w => emit (put_history h w).

(** [setChatHistory(updater)] for an updater that may read the clock. *)
Definition setChatHistoryM (updater : list Message -> M (list Message)) : M unit :=
  prev <- get_app ;;
  h <- updater (chatHistory prev) ;;
  commit_chatHistory h.

(** [setChatHistory((prevHistory) => ...)] *)
Definition setChatHistory (updater : list Message -> list Message) : M unit :=
  setChatHistoryM (fun prevHistory => ret (updater prevHistory)).

Definition tick (w : World) : World :=
  {| app := app w; container := container w;
     clock_reads := S (clock_reads w); requests := requests w |}.

(** [Date.now()] *)
Definition now : M Z :=
  fun w =>
    {| completion := Returned (Date_now env (clock_reads w));
       final := tick w; commits := [] |}.

Definition requested (w : World) : World :=
  {| app := app w; container := container w;
     clock_reads := clock_reads w; requests := S (requests w) |}.

(** [await chat.sendMessageStream({ message })] *)
Definition chat_sendMessageStream (message : string) : M ResponseStream :=
  fun w =>
    match sendMessageStream env (requests w) message with
    | Resolves rs =>
        {| completion := Returned rs; final := requested w; commits := [] |}
    | Rejects =>
        {| completion := Thrown; final := requested w; commits := [] |}
    end.

(** [new GoogleGenAI(...)] followed by [ai.chats.create(...)] *)
Definition ai_chats_create (model_name instruction : string) : M Chat :=
  match chats_create env with
  | Some c => ret c
  | None => throw
  end.

(** [console.error(e)] and [await new Promise(r => setTimeout(r, ms))]
    leave the component alone. *)
Definition console_error : M unit := ret tt.
Definition sleep (ms : Z) : M unit := ret tt.

(** [l.filter(p)] for a predicate that may read the clock: [p] is called
    on each element in order. *)
Fixpoint filterM (p : Message -> M bool) (l : list Message) : M (list Message) :=
  match l with
  | [] => ret []
  | msg :: l' =>
      keep <- p msg ;;
      rest <- filterM p l' ;;
      ret (if keep : bool then msg :: rest else rest)
  end.

(** ** [initChat] *)

(** The greeting, byte for byte as the source file has it: after the
    question come the four characters U+00F0, U+0178, U+02DC and U+0160,
    two bytes each. *)
Definition welcomeMessage : string :=
  "Hello! How can I help you today? "
  +:+ JS.bytes [195; 176; 197; 184; 203; 156; 197; 160]%nat.

(** [for (const char of welcomeMessage) { ... }] *)
Fixpoint greet (initialMessageId currentText : string) (chars : list string) : M unit :=
  match chars with
  | [] => ret tt
  | char :: chars' =>
      let currentText := currentText +:+ char in
      setChatHistory (fun _ =>
        [{| id := initialMessageId; role := model; text := currentText |}]) ;;
      sleep 30 ;;
      greet initialMessageId currentText chars'
  end.

(** The [try] block of [initChat]. *)
Definition init_block : M unit :=
  newChat <- ai_chats_create MODEL_NAME
               "You are a helpful and friendly chat assistant." ;;
  setChat (Some newChat) ;;
  setIsLoading true ;;
  t <- now ;;
  let initialMessageId := JS.toString t in
  setChatHistory (fun _ =>
    [{| id := initialMessageId; role := model; text := "" |}]) ;;
  greet initialMessageId "" (JS.code_points welcomeMessage).

Definition initChat : M unit :=
  try_catch_finally
    init_block
    (console_error ;;
     setError (Some "Failed to initialize the chat. Please ensure your API key is set up correctly."))
    (setIsLoading false).

(** ** [handleSendMessage] *)

(** [{ ...msg, text: currentText }] *)
Definition with_text (currentText : string) (msg : Message) : Message :=
  {| id := id msg; role := role msg; text := currentText |}.

(** The updater of one chunk:
    [prevHistory.map(msg => msg.id === modelMessageId ? {...msg, text: currentText} : msg)] *)
Definition chunk_update (modelMessageId currentText : string)
    (prevHistory : list Message) : list Message :=
  map (fun msg =>
         if String.eqb (id msg) modelMessageId
         then with_text currentText msg else msg)
      prevHistory.

(** [for await (const chunk of responseStream) { ... }] *)
Fixpoint for_await (modelMessageId currentText : string)
    (cs : list Chunk) (e : StreamEnd) : M unit :=
  match cs with
  | [] => match e with Completes => ret tt | Raises => throw end
  | chunk :: cs' =>
      let currentText := currentText +:+ GenerateContentResponse.text chunk in
      setChatHistory (chunk_update modelMessageId currentText) ;;
      for_await modelMessageId currentText cs' e
  end.

(** The predicate of the catch branch's filter:
    [msg => msg.id !== (Date.now() + 1).toString()] *)
Definition not_recomputed_id (msg : Message) : M bool :=
  t <- now ;;
  ret (negb (String.eqb (id msg) (JS.toString (t + 1)))).

(** [!userInput.trim() || isLoading || !chat] *)
Definition rejected (s : AppState) : bool :=
  String.eqb (JS.trim (userInput s)) "" || isLoading s
  || match chat s with Some _ => false | None => true end.

(** The [try] block. *)
Definition try_block (message : string) : M unit :=
  responseStream <- chat_sendMessageStream message ;;
  t1 <- now ;;
  let modelMessageId := JS.toString (t1 + 1) in
  setChatHistory (fun prevHistory =>
    (prevHistory ++ [{| id := modelMessageId; role := model; text := "" |}])%list) ;;
  for_await modelMessageId "" (chunks responseStream) (ending responseStream).

(** The [catch] block. *)
Definition catch_block : M unit :=
  console_error ;;
  setError (Some "An error occurred while sending the message. Please try again.") ;;
  setChatHistoryM (filterM not_recomputed_id).

(** [if (e) e.preventDefault()] touches no state and has no counterpart
    here. *)
Definition handleSendMessage : M unit :=
  s <- get_app ;;
  if rejected s then ret tt else
  t <- now ;;
  let userMessage := {| id := JS.toString t; role := user; text := userInput s |} in
  setChatHistory (fun prevHistory => (prevHistory ++ [userMessage])%list) ;;
  setUserInput "" ;;
  setIsLoading true ;;
  setError None ;;
  try_catch_finally
    (try_block (userInput s))
    catch_block
    (setIsLoading false).

(** ** Events of the form *)

Inductive Event :=
| Typed (value : string)   (* onChange: setUserInput(e.target.value) *)
| Submitted.               (* onSubmit: handleSendMessage *)

Definition handle (ev : Event) : M unit :=
  match ev with
  | Typed value => setUserInput value
  | Submitted => handleSendMessage
  end.

Fixpoint handle_all (evs : list Event) (w : World) : World :=
  match evs with
  | [] => w
  | ev :: evs' => handle_all evs' (final (handle ev w))
  end.

End Program.

(** ** Worlds of the runs, and the notions the theorems are stated with *)

(** [logged pre o]: the outcome [o] with the commits [pre] before its own. *)
Definition logged {A} (pre : list World) (o : Outcome A) : Outcome A :=
  {| completion := completion o; final := final o; commits := pre ++ commits o |}.

(** The world after [setChatHistory(updater)]. *)
Definition update_history (env : Env) (updater : list Message -> list Message)
    (w : World) : World :=
  put_history env (updater (chatHistory (app w))) w.

Section LoopWorlds.

Variable env : Env.

(** The world after the chunks [cs] have been processed from [w]. *)
Fixpoint after_chunks (modelMessageId currentText : string) (cs : list Chunk)
    (w : World) : World :=
  match cs with
  | [] => w
  | chunk :: cs' =>
      let currentText := currentText +:+ GenerateContentResponse.text chunk in
      after_chunks modelMessageId currentText cs'
        (update_history env (chunk_update modelMessageId currentText) w)
  end.

(** The worlds committed while the chunks [cs] are processed from [w]. *)
Fixpoint chunk_commits (modelMessageId currentText : string) (cs : list Chunk)
    (w : World) : list World :=
  match cs with
  | [] => []
  | chunk :: cs' =>
      let currentText := currentText +:+ GenerateContentResponse.text chunk in
      let w' := update_history env (chunk_update modelMessageId currentText) w in
      w' :: chunk_commits modelMessageId currentText cs' w'
  end.

(** How the loop over a stream completes. *)
Definition end_completion (e : StreamEnd) : Completion unit :=
  match e with Completes => Returned tt | Raises => Thrown end.

(** The worlds committed by the greeting loop, and the world it ends in. *)
Fixpoint after_greet (initialMessageId currentText : string) (chars : list string)
    (w : World) : World :=
  match chars with
  | [] => w
  | char :: chars' =>
      let currentText := currentText +:+ char in
      after_greet initialMessageId currentText chars'
        (update_history env (fun _ =>
           [{| id := initialMessageId; role := model; text := currentText |}]) w)
  end.

Fixpoint greet_commits (initialMessageId currentText : string) (chars : list string)
    (w : World) : list World :=
  match chars with
  | [] => []
  | char :: chars' =>
      let currentText := currentText +:+ char in
      let w' := update_history env (fun _ =>
           [{| id := initialMessageId; role := model; text := currentText |}]) w in
      w' :: greet_commits initialMessageId currentText chars' w'
  end.

(** The catch branch's filter, as a function of the number [k] of its
    first clock reading: the message at position [i] is tested against
    reading [k + i]. *)
Fixpoint surviving (k : nat) (l : list Message) : list Message :=
  match l with
  | [] => []
  | msg :: l' =>
      if String.eqb (id msg) (JS.toString (Date_now env k + 1))
      then surviving (S k) l'
      else msg :: surviving (S k) l'
  end.

(** The world after [n] more clock readings. *)
Fixpoint ticks (n : nat) (w : World) : World :=
  match n with
  | O => w
  | S n' => ticks n' (tick w)
  end.

End LoopWorlds.

Section RunWorlds.

Variable env : Env.

(** The message built from the input, with the first clock reading of the
    call as id. *)
Definition userMessage_of (w : World) : Message :=
  {| id := JS.toString (Date_now env (clock_reads w));
     role := user; text := userInput (app w) |}.

(** The id built from the second clock reading of the call, plus one. *)
Definition modelMessageId_of (w : World) : string :=
  JS.toString (Date_now env (S (clock_reads w)) + 1).

Definition placeholder_of (w : World) : Message :=
  {| id := modelMessageId_of w; role := model; text := "" |}.

(** The worlds of an accepted call, one per setter call. *)
Definition posted (w : World) : World :=
  update_history env (fun prevHistory => prevHistory ++ [userMessage_of w]) (tick w).

Definition cleared (w : World) : World := put_cell env (with_userInput "") (posted w).

Definition busy (w : World) : World := put_cell env (with_isLoading true) (cleared w).

Definition accepted (w : World) : World := put_cell env (with_error None) (busy w).

Definition placed (w : World) : World :=
  update_history env (fun prevHistory => prevHistory ++ [placeholder_of w])
    (tick (requested (accepted w))).

Definition streamed (cs : list Chunk) (w : World) : World :=
  after_chunks env (modelMessageId_of w) "" cs (placed w).

Definition send_error : string :=
  "An error occurred while sending the message. Please try again.".

Definition init_error : string :=
  "Failed to initialize the chat. Please ensure your API key is set up correctly.".

(** The worlds of the catch branch entered in world [w], and of the
    finally branch. *)
Definition failed (w : World) : World := put_cell env (with_error (Some send_error)) w.

Definition filtered (w : World) : World :=
  put_history env
    (surviving env (clock_reads w) (chatHistory (app w)))
    (ticks (length (chatHistory (app w))) (failed w)).

Definition idle (w : World) : World := put_cell env (with_isLoading false) w.

End RunWorlds.

Abbreviation text_of := GenerateContentResponse.text.

Section CycleSpec.

Variable env : Env.

(** The claim C3 as it is worded: some state of the call has the history
    the call found, followed by a user message and a placeholder with role
    [model] and empty text. *)
Definition placeholder_after_accept (w : World) : Prop :=
  exists wp um pm,
    wp ∈ states (handleSendMessage env) w
    /\ chatHistory (app wp) = chatHistory (app w) ++ [um; pm]
    /\ role um = user /\ role pm = model /\ text pm = "".

End CycleSpec.

(** [stepwise R w l]: [R] relates each world of [w :: l] to the next. *)
Fixpoint stepwise (R : World -> World -> Prop) (w : World) (l : list World) : Prop :=
  match l with
  | [] => True
  | w' :: l' => R w w' /\ stepwise R w' l'
  end.





Section CommitSpec.

Variable env : Env.

(** The messages the catch branch's filter keeps in [h] when its first
    clock reading is reading number [k]: each message is paired with the
    number of the reading it is tested against, and goes when its id is
    the string of that reading plus one. *)
Definition kept_by_filter (k : nat) (h : list Message) : list Message :=
  (filter (fun p => id p.2 <> JS.toString (Date_now env p.1 + 1))
          (zip (seq k (length h)) h)).*2.

(** [w'] shows what [w] shows: the worlds differ in their counters only. *)
Definition same_view (w w' : World) : Prop :=
  app w' = app w /\ container w' = container w.

(** A commit: a setter call made in a world that shows what [wa] shows.
    [U] relates the history found to the history committed. *)
Inductive commit_of (U : list Message -> list Message -> Prop) (wa : World)
  : World -> Prop :=
| commit_cell f w' :
    same_view wa w' -> (forall s, chatHistory (f s) = chatHistory s) ->
    commit_of U wa (put_cell env f w')
| commit_history h w' :
    same_view wa w' -> U (chatHistory (app wa)) h ->
    commit_of U wa (put_history env h w').

End CommitSpec.

Section InitWorlds.

Variable env : Env.

(** The id of the greeting: the clock reading of the call. *)
Definition greeting_id (w : World) : string :=
  JS.toString (Date_now env (clock_reads w)).

Definition connected (c : Chat) (w : World) : World :=
  put_cell env (with_chat (Some c)) w.

Definition loading (c : Chat) (w : World) : World :=
  put_cell env (with_isLoading true) (connected c w).

Definition opened (c : Chat) (w : World) : World :=
  update_history env
    (fun _ => [{| id := greeting_id w; role := model; text := "" |}])
    (tick (loading c w)).

Definition greeted (c : Chat) (chars : list string) (w : World) : World :=
  after_greet env (greeting_id w) "" chars (opened c w).

Definition init_failed (w : World) : World :=
  put_cell env (with_error (Some init_error)) w.

End InitWorlds.

Section UpdateSpec.

Variable env : Env.

(** The container shows the end of the thread as laid out for [w]. *)
Definition scrolled_to_bottom (w : World) : Prop :=
  exists d, container w = Some d
            /\ scrollTop d = scrollHeight d
            /\ scrollHeight d = layoutHeight env (app w).

(** When the history changed from [wa] to [wb], [wb] is scrolled to the
    bottom. *)
Definition scroll_follows (wa wb : World) : Prop :=
  chatHistory (app wa) <> chatHistory (app wb) -> scrolled_to_bottom wb.

End UpdateSpec.

(** ** The rendered view *)

(** [role === 'user'] *)
Definition is_user (r : Role) : bool :=
  match r with user => true | model => false end.

(** The condition of the loading indicator:
    [isLoading && chatHistory.length > 0
     && chatHistory[chatHistory.length - 1].role === 'user']. *)
Definition showLoadingDots (s : AppState) : bool :=
  isLoading s
  && (0 <? length (chatHistory s))%nat
  && match chatHistory s !! (length (chatHistory s) - 1)%nat with
     | Some msg => is_user (role msg)
     | None => false
     end.

(** [!chat] *)
Definition no_chat (s : AppState) : bool :=
  match chat s with Some _ => false | None => true end.

(** The input field: [disabled={isLoading || !chat}]. *)
Definition inputDisabled (s : AppState) : bool :=
  isLoading s || no_chat s.

(** The send button: [disabled={isLoading || !userInput.trim() || !chat}]. *)
Definition buttonDisabled (s : AppState) : bool :=
  isLoading s || String.eqb (JS.trim (userInput s)) "" || no_chat s.

(** The React keys of the rendered messages: [key={msg.id}]. *)
Definition messageKeys (s : AppState) : list string :=
  map id (chatHistory s).

(** The id of [msg] is the string of an integer below [b]: it was made
    from a clock reading before [b]. *)
Definition made_before (b : Z) (msg : Message) : Prop :=
  exists z, id msg = JS.toString z /\ z < b.

(** What a call that does nothing returns in world [w]. *)
Definition nothing_done (w : World) : Outcome unit :=
  {| completion := Returned tt; final := w; commits := [] |}.

(** The scroll position of the container, when there is one. *)
Definition scroll_position (w : World) : option Z :=
  scrollTop <$> container w.

(** A world of the greeting: busy, with one message from the model, and
    no request sent since [w]. *)
Definition greeting_world (w wi : World) : Prop :=
  isLoading (app wi) = true
  /\ requests wi = requests w
  /\ exists msg, chatHistory (app wi) = [msg] /\ role msg = model.

Section ScrollSpec.

Variable env : Env.

(** From [wa] to [wb] the scroll position stayed where it was, or went to
    the bottom of the thread as laid out for [wb]. *)
Definition scroll_kept_or_bottom (wa wb : World) : Prop :=
  scroll_position wb = scroll_position wa \/ scrolled_to_bottom env wb.

End ScrollSpec.

(** ** Concrete environments and worlds *)

Module Demo.

Definition session : Chat :=
  {| chat_model := MODEL_NAME;
     systemInstruction := "You are a helpful and friendly chat assistant." |}.

Definition chunk (s : string) : Chunk := {| GenerateContentResponse.text := s |}.

(** A clock that advances 40 ms between readings, and one that stands
    still: every reading falls in the same millisecond. *)
Definition running_clock (k : nat) : Z := 1700000000000 + 40 * Z.of_nat k.
Definition standing_clock (k : nat) : Z := 1700000000000.

Definition thread_height (s : AppState) : Z := 60 * Z.of_nat (length (chatHistory s)).

(** The service streams two chunks and completes. *)
Definition env_ok : Env :=
  {| Date_now := running_clock;
     chats_create := Some session;
     sendMessageStream := fun _ _ =>
       Resolves {| chunks := [chunk "Hel"; chunk "lo"]; ending := Completes |};
     layoutHeight := thread_height |}.

(** The service rejects the request. *)
Definition env_rejecting : Env :=
  {| Date_now := running_clock;
     chats_create := Some session;
     sendMessageStream := fun _ _ => Rejects;
     layoutHeight := thread_height |}.

(** The stream raises after one chunk. *)
Definition env_raising (clock : nat -> Z) : Env :=
  {| Date_now := clock;
     chats_create := Some session;
     sendMessageStream := fun _ _ =>
       Resolves {| chunks := [chunk "Hel"]; ending := Raises |};
     layoutHeight := thread_height |}.

(** Creating the session throws. *)
Definition env_no_key : Env :=
  {| Date_now := running_clock;
     chats_create := None;
     sendMessageStream := fun _ _ => Rejects;
     layoutHeight := thread_height |}.

Definition greeting : Message :=
  {| id := "1699999990000"; role := model; text := welcomeMessage |}.

(** The component after the greeting, with [input] typed in. *)
Definition typed (input : string) : World :=
  {| app := {| chat := Some session; userInput := input;
               chatHistory := [greeting]; isLoading := false; error := None |};
     container := Some {| scrollTop := 60; scrollHeight := 60 |};
     clock_reads := 1; requests := 0 |}.

Definition ready : World := typed "Hi".

(** Only white space typed in: two spaces, a tab and a no-break space. *)
Definition blank : World := typed (JS.bytes [32; 32; 9; 194; 160]%nat).

Definition unmounted_container : Container := {| scrollTop := 0; scrollHeight := 0 |}.

End Demo.

Module DemoMore.

(** A service that answers request 0 for the text [Hi] as [Demo.env_ok]
    does, rejects every other request, and cannot create a session. *)
Definition env_answering_once : Env :=
  {| Date_now := Demo.running_clock;
     chats_create := None;
     sendMessageStream := fun k message =>
       if Nat.eqb k 0 && String.eqb message "Hi"
       then Resolves {| chunks := [Demo.chunk "Hel"; Demo.chunk "lo"];
                        ending := Completes |}
       else Rejects;
     layoutHeight := Demo.thread_height |}.

Definition reply : ResponseStream :=
  {| chunks := [Demo.chunk "Hel"; Demo.chunk "lo"]; ending := Completes |}.

Definition fresh : World := mounted Demo.unmounted_container.

End DemoMore.

(** ** Equations of the monad *)

Lemma logged_nil {A} (o : Outcome A) : logged [] o = o.
Proof. destruct o; reflexivity. Qed.

Lemma logged_logged {A} (l1 l2 : list World) (o : Outcome A) :
  logged l1 (logged l2 o) = logged (l1 ++ l2) o.
Proof. unfold logged; simpl. by rewrite app_assoc. Qed.

Lemma bind_returned {A B} (m : M A) (k : A -> M B) w a :
  completion (m w) = Returned a ->
  bind m k w = logged (commits (m w)) (k a (final (m w))).
Proof. intros H. unfold bind. rewrite H. reflexivity. Qed.

Lemma bind_thrown {A B} (m : M A) (k : A -> M B) w :
  completion (m w) = Thrown ->
  bind m k w = {| completion := Thrown; final := final (m w); commits := commits (m w) |}.
Proof. intros H. unfold bind. rewrite H. reflexivity. Qed.

Lemma bind_ret {A B} (a : A) (k : A -> M B) w : bind (ret a) k w = k a w.
Proof. rewrite (bind_returned _ _ _ a) by reflexivity. apply logged_nil. Qed.

Lemma bind_get_app {B} (k : AppState -> M B) w : bind get_app k w = k (app w) w.
Proof. rewrite (bind_returned _ _ _ (app w)) by reflexivity. apply logged_nil. Qed.

Section Equations.

Variable env : Env.

Lemma bind_now {B} (k : Z -> M B) w :
  bind (now env) k w = k (Date_now env (clock_reads w)) (tick w).
Proof.
  rewrite (bind_returned _ _ _ (Date_now env (clock_reads w))) by reflexivity.
  apply logged_nil.
Qed.

Lemma bind_set_cell {B} f (k : unit -> M B) w :
  bind (set_cell env f) k w
  = logged [put_cell env f w] (k tt (put_cell env f w)).
Proof. by rewrite (bind_returned _ _ _ tt). Qed.

Lemma run_setChatHistory updater w :
  setChatHistory env updater w = emit (update_history env updater w).
Proof.
  unfold setChatHistory, setChatHistoryM.
  rewrite bind_get_app, bind_ret. reflexivity.
Qed.

Lemma bind_setChatHistory {B} updater (k : unit -> M B) w :
  bind (setChatHistory env updater) k w
  = logged [update_history env updater w] (k tt (update_history env updater w)).
Proof.
  rewrite (bind_returned _ _ _ tt) by (by rewrite run_setChatHistory).
  by rewrite run_setChatHistory.
Qed.

End Equations.

(** ** Closed forms of the loops *)

Section Loops.

Variable env : Env.

Lemma run_for_await mid cur cs e w :
  for_await env mid cur cs e w
  = {| completion := end_completion e;
       final := after_chunks env mid cur cs w;
       commits := chunk_commits env mid cur cs w |}.
Proof.
  revert cur w. induction cs as [|c cs IH]; intros cur w; simpl.
  - by destruct e.
  - rewrite bind_setChatHistory, IH. reflexivity.
Qed.

Lemma length_chunk_commits mid cur cs w :
  length (chunk_commits env mid cur cs w) = length cs.
Proof.
  revert cur w. induction cs as [|c cs IH]; intros cur w; simpl; [done|].
  by rewrite IH.
Qed.

(** The [n]-th commit of the loop is the world after [n + 1] chunks. *)
Lemma lookup_chunk_commits mid cur cs w (n : nat) :
  (n < length cs)%nat ->
  chunk_commits env mid cur cs w !! n = Some (after_chunks env mid cur (take (S n) cs) w).
Proof.
  revert cur w n. induction cs as [|c cs IH]; intros cur w n Hn; simpl in *; [lia|].
  destruct n as [|n]; simpl.
  - reflexivity.
  - apply IH. lia.
Qed.

Lemma run_greet mid cur chars w :
  greet env mid cur chars w
  = {| completion := Returned tt;
       final := after_greet env mid cur chars w;
       commits := greet_commits env mid cur chars w |}.
Proof.
  revert cur w. induction chars as [|c chars IH]; intros cur w; simpl; [done|].
  rewrite bind_setChatHistory. unfold sleep. rewrite bind_ret, IH. reflexivity.
Qed.

Lemma length_greet_commits mid cur chars w :
  length (greet_commits env mid cur chars w) = length chars.
Proof.
  revert cur w. induction chars as [|c chars IH]; intros cur w; simpl; [done|].
  by rewrite IH.
Qed.

Lemma lookup_greet_commits mid cur chars w (n : nat) :
  (n < length chars)%nat ->
  greet_commits env mid cur chars w !! n
  = Some (after_greet env mid cur (take (S n) chars) w).
Proof.
  revert cur w n. induction chars as [|c chars IH]; intros cur w n Hn; simpl in *; [lia|].
  destruct n as [|n]; simpl.
  - reflexivity.
  - apply IH. lia.
Qed.

Lemma run_filterM l w :
  filterM (not_recomputed_id env) l w
  = {| completion := Returned (surviving env (clock_reads w) l);
       final := ticks (length l) w;
       commits := [] |}.
Proof.
  revert w. induction l as [|msg l IH]; intros w; simpl; [done|].
  unfold not_recomputed_id at 1.
  rewrite (bind_returned _ _ _
             (negb (String.eqb (id msg) (JS.toString (Date_now env (clock_reads w) + 1))))).
  2:{ by rewrite bind_now. }
  rewrite bind_now. simpl.
  rewrite (bind_returned _ _ _ (surviving env (S (clock_reads w)) l)) by (by rewrite IH).
  rewrite IH. simpl. unfold logged. simpl.
  by destruct (String.eqb _ _).
Qed.

End Loops.

(** ** Closed forms of the handlers *)

Section Runs.

Variable env : Env.

Lemma run_catch_block w :
  catch_block env w
  = {| completion := Returned tt; final := filtered env w;
       commits := [failed env w; filtered env w] |}.
Proof.
  unfold catch_block, console_error, setError.
  rewrite bind_ret, bind_set_cell.
  unfold setChatHistoryM. rewrite bind_get_app.
  rewrite (bind_returned _ _ _ _ (f_equal completion (run_filterM env _ _))).
  rewrite run_filterM. reflexivity.
Qed.

Lemma run_try_block_rejects message w :
  sendMessageStream env (requests w) message = Rejects ->
  try_block env message w
  = {| completion := Thrown; final := requested w; commits := [] |}.
Proof.
  intros H. unfold try_block.
  rewrite bind_thrown; unfold chat_sendMessageStream; by rewrite H.
Qed.

Lemma run_try_block_resolves message rs w :
  sendMessageStream env (requests w) message = Resolves rs ->
  let mid := JS.toString (Date_now env (clock_reads w) + 1) in
  let p := update_history env
             (fun prevHistory =>
                prevHistory ++ [{| id := mid; role := model; text := "" |}])
             (tick (requested w)) in
  try_block env message w
  = {| completion := end_completion (ending rs);
       final := after_chunks env mid "" (chunks rs) p;
       commits := p :: chunk_commits env mid "" (chunks rs) p |}.
Proof.
  intros H mid p. unfold try_block.
  rewrite (bind_returned _ _ _ rs) by (unfold chat_sendMessageStream; by rewrite H).
  unfold chat_sendMessageStream. rewrite H. cbn [completion final commits].
  rewrite logged_nil, bind_now, bind_setChatHistory, run_for_await.
  reflexivity.
Qed.

Lemma run_rejected w :
  rejected (app w) = true ->
  handleSendMessage env w = {| completion := Returned tt; final := w; commits := [] |}.
Proof.
  intros H. unfold handleSendMessage. by rewrite bind_get_app, H.
Qed.

(** An accepted call: the four setter calls, then the [try] statement. *)
Lemma run_accepted w :
  rejected (app w) = false ->
  handleSendMessage env w
  = logged [posted env w; cleared env w; busy env w; accepted env w]
      (try_catch_finally (try_block env (userInput (app w))) (catch_block env)
         (setIsLoading env false) (accepted env w)).
Proof.
  intros H. unfold handleSendMessage.
  rewrite bind_get_app, H, bind_now, bind_setChatHistory.
  unfold setUserInput, setIsLoading, setError.
  rewrite !bind_set_cell, !logged_logged. reflexivity.
Qed.

Lemma run_send_rejects w :
  rejected (app w) = false ->
  sendMessageStream env (requests w) (userInput (app w)) = Rejects ->
  let r := requested (accepted env w) in
  handleSendMessage env w
  = {| completion := Returned tt;
       final := idle env (filtered env r);
       commits := [posted env w; cleared env w; busy env w; accepted env w;
                   failed env r; filtered env r; idle env (filtered env r)] |}.
Proof.
  intros Hacc Hsend r. rewrite run_accepted by done.
  unfold try_catch_finally.
  rewrite run_try_block_rejects by done.
  cbn [completion final commits]. rewrite run_catch_block. reflexivity.
Qed.

Lemma run_stream_completes w rs :
  rejected (app w) = false ->
  sendMessageStream env (requests w) (userInput (app w)) = Resolves rs ->
  ending rs = Completes ->
  handleSendMessage env w
  = {| completion := Returned tt;
       final := idle env (streamed env (chunks rs) w);
       commits := [posted env w; cleared env w; busy env w; accepted env w; placed env w]
                  ++ chunk_commits env (modelMessageId_of env w) "" (chunks rs) (placed env w)
                  ++ [idle env (streamed env (chunks rs) w)] |}.
Proof.
  intros Hacc Hsend Hend. rewrite run_accepted by done.
  unfold try_catch_finally.
  rewrite (run_try_block_resolves _ rs) by done.
  rewrite Hend. reflexivity.
Qed.

Lemma run_stream_raises w rs :
  rejected (app w) = false ->
  sendMessageStream env (requests w) (userInput (app w)) = Resolves rs ->
  ending rs = Raises ->
  let s := streamed env (chunks rs) w in
  handleSendMessage env w
  = {| completion := Returned tt;
       final := idle env (filtered env s);
       commits := [posted env w; cleared env w; busy env w; accepted env w; placed env w]
                  ++ chunk_commits env (modelMessageId_of env w) "" (chunks rs) (placed env w)
                  ++ [failed env s; filtered env s; idle env (filtered env s)] |}.
Proof.
  intros Hacc Hsend Hend s. rewrite run_accepted by done.
  unfold try_catch_finally.
  rewrite (run_try_block_resolves _ rs) by done.
  rewrite Hend. cbn [completion final commits].
  rewrite run_catch_block. reflexivity.
Qed.

End Runs.

(** ** Facts about strings and lists *)

Lemma append_nil_r (s : string) : s +:+ "" = s.
Proof.
  induction s as [|a s IH]; [done|].
  change (String a (s +:+ "") = String a s). by rewrite IH.
Qed.

Lemma append_cons (a : ascii) (s1 s2 : string) :
  String a s1 +:+ s2 = String a (s1 +:+ s2).
Proof. reflexivity. Qed.

Lemma append_assoc (s1 s2 s3 : string) : (s1 +:+ s2) +:+ s3 = s1 +:+ (s2 +:+ s3).
Proof.
  induction s1 as [|a s1 IH]; [done|].
  by rewrite !append_cons, IH.
Qed.

Lemma concat_app (l1 l2 : list string) :
  JS.concat (l1 ++ l2) = JS.concat l1 +:+ JS.concat l2.
Proof.
  induction l1 as [|s l1 IH]; simpl; [done|].
  by rewrite IH, append_assoc.
Qed.

(** Iterating over the code points loses no byte. *)
Lemma concat_code_points (s : string) : JS.concat (JS.code_points s) = s.
Proof.
  induction s as [|a s IH]; [done|].
  cbn [JS.code_points].
  destruct (JS.code_points s) as [|g gs]; cbn [JS.concat] in *.
  - by rewrite <- IH.
  - destruct (JS.starts_with_continuation g); cbn [JS.concat];
      by rewrite ?append_cons, <- IH.
Qed.

Lemma lookup_map {A B} (f : A -> B) (l : list A) (i : nat) :
  map f l !! i = f <$> (l !! i).
Proof.
  revert i. induction l as [|x l IH]; intros [|i]; simpl; done.
Qed.

(** ** The guard (C2) *)

Section Guard.

Variable env : Env.

Lemma rejected_true (s : AppState) :
  rejected s = true
  <-> JS.trim (userInput s) = "" \/ isLoading s = true \/ chat s = None.
Proof.
  unfold rejected. rewrite !orb_true_iff, String.eqb_eq.
  destruct (chat s); intuition congruence.
Qed.

(** C2: when a request is outstanding, or the input is empty after
    trimming, or the chat session is not initialized, [handleSendMessage]
    returns at once: it calls no setter, reads no clock and sends nothing,
    so the chat history, the input text, the busy flag and the error state
    are the ones it found. *)
Theorem handleSendMessage_guard (w : World) :
  isLoading (app w) = true \/ JS.trim (userInput (app w)) = "" \/ chat (app w) = None ->
  handleSendMessage env w
  = {| completion := Returned tt; final := w; commits := [] |}.
Proof.
  intros H. apply run_rejected, rejected_true. tauto.
Qed.

End Guard.

(** ** The request cycle *)

Section Cycle.

Variable env : Env.

Lemma requests_ticks n w : requests (ticks n w) = requests w.
Proof. revert w. induction n as [|n IH]; intros w; simpl; [done|]. by rewrite IH. Qed.

Lemma app_ticks n w : app (ticks n w) = app w.
Proof. revert w. induction n as [|n IH]; intros w; simpl; [done|]. by rewrite IH. Qed.

Lemma container_ticks n w : container (ticks n w) = container w.
Proof. revert w. induction n as [|n IH]; intros w; simpl; [done|]. by rewrite IH. Qed.

Lemma requests_after_chunks mid cur cs w :
  requests (after_chunks env mid cur cs w) = requests w.
Proof.
  revert cur w. induction cs as [|c cs IH]; intros cur w; simpl; [done|].
  by rewrite IH.
Qed.

(** One more chunk is one more [chunk_update]. *)
Lemma after_chunks_snoc mid cur cs c w :
  after_chunks env mid cur (cs ++ [c]) w
  = update_history env
      (chunk_update mid ((cur +:+ JS.concat (map text_of cs)) +:+ text_of c))
      (after_chunks env mid cur cs w).
Proof.
  revert cur w. induction cs as [|c' cs IH]; intros cur w; simpl.
  - by rewrite append_nil_r.
  - rewrite IH. by rewrite <- (append_assoc cur).
Qed.

(** The message at a position that holds the placeholder's id carries the
    text accumulated so far. *)
Lemma after_chunks_placeholder mid cur cs w (i : nat) r :
  chatHistory (app w) !! i = Some {| id := mid; role := r; text := cur |} ->
  chatHistory (app (after_chunks env mid cur cs w)) !! i
  = Some {| id := mid; role := r; text := cur +:+ JS.concat (map text_of cs) |}.
Proof.
  revert cur w. induction cs as [|c cs IH]; intros cur w H; simpl.
  - by rewrite append_nil_r.
  - rewrite <- append_assoc. apply IH. simpl.
    unfold chunk_update. rewrite lookup_map, H. simpl.
    by rewrite String.eqb_refl.
Qed.

Lemma run_states w rs :
  rejected (app w) = false ->
  sendMessageStream env (requests w) (userInput (app w)) = Resolves rs ->
  exists rest,
    states (handleSendMessage env) w
    = [w; posted env w; cleared env w; busy env w; accepted env w; placed env w]
      ++ chunk_commits env (modelMessageId_of env w) "" (chunks rs) (placed env w)
      ++ rest.
Proof.
  intros Hacc Hsend. unfold states. destruct (ending rs) eqn:Hend.
  - rewrite (run_stream_completes env w rs) by done. by eexists.
  - rewrite (run_stream_raises env w rs) by done. by eexists.
Qed.

(** State [5 + n] of a call whose stream started is the world after the
    first [n] chunks. *)
Lemma state_after_chunk w rs (n : nat) :
  rejected (app w) = false ->
  sendMessageStream env (requests w) (userInput (app w)) = Resolves rs ->
  (n <= length (chunks rs))%nat ->
  states (handleSendMessage env) w !! (5 + n)%nat
  = Some (streamed env (take n (chunks rs)) w).
Proof.
  intros Hacc Hsend Hn. destruct (run_states w rs Hacc Hsend) as [rest ->].
  destruct n as [|n].
  - reflexivity.
  - rewrite lookup_app_r by (simpl; lia).
    replace (5 + S n - length _)%nat with n by (simpl; lia).
    rewrite lookup_app_l by (rewrite length_chunk_commits; lia).
    apply lookup_chunk_commits. lia.
Qed.

Lemma placed_history w :
  chatHistory (app (placed env w))
  = chatHistory (app w) ++ [userMessage_of env w; placeholder_of env w].
Proof. simpl. by rewrite <- app_assoc. Qed.

Lemma placed_placeholder w :
  chatHistory (app (placed env w)) !! S (length (chatHistory (app w)))
  = Some (placeholder_of env w).
Proof.
  rewrite placed_history, lookup_app_r by lia.
  by replace (S _ - _)%nat with 1%nat by lia.
Qed.


Lemma accepted_histories w :
  map (fun x => chatHistory (app x))
      [w; posted env w; cleared env w; busy env w; accepted env w]
  = [chatHistory (app w);
     chatHistory (app w) ++ [userMessage_of env w];
     chatHistory (app w) ++ [userMessage_of env w];
     chatHistory (app w) ++ [userMessage_of env w];
     chatHistory (app w) ++ [userMessage_of env w]].
Proof. reflexivity. Qed.

Lemma take_states_accepted w :
  rejected (app w) = false ->
  take 5 (states (handleSendMessage env) w)
  = [w; posted env w; cleared env w; busy env w; accepted env w].
Proof.
  intros Hacc. unfold states. rewrite run_accepted by done. reflexivity.
Qed.

(** C3, amended: an accepted call appends the user's message to the end
    of the history with its first setter call, and the next three setter
    calls leave the history alone; when the stream then starts, the fifth
    setter call appends one placeholder with role [model] and empty text
    at the end, before any chunk is processed (the chunks are states 6 and
    later).  The messages found at the start stay as they were. *)
Theorem user_message_then_placeholder (w : World) :
  rejected (app w) = false ->
  map (fun x => chatHistory (app x)) (take 5 (states (handleSendMessage env) w))
  = [chatHistory (app w);
     chatHistory (app w) ++ [userMessage_of env w];
     chatHistory (app w) ++ [userMessage_of env w];
     chatHistory (app w) ++ [userMessage_of env w];
     chatHistory (app w) ++ [userMessage_of env w]]
  /\ forall rs,
      sendMessageStream env (requests w) (userInput (app w)) = Resolves rs ->
      exists wp,
        states (handleSendMessage env) w !! 5%nat = Some wp
        /\ chatHistory (app wp)
           = chatHistory (app w)
             ++ [ {| id := JS.toString (Date_now env (clock_reads w));
                     role := user; text := userInput (app w) |};
                  {| id := JS.toString (Date_now env (S (clock_reads w)) + 1);
                     role := model; text := "" |} ].
Proof.
  intros Hacc. split.
  - rewrite take_states_accepted by done. apply accepted_histories.
  - intros rs Hsend. exists (placed env w). split.
    + by apply (state_after_chunk w rs 0); [| |lia].
    + apply placed_history.
Qed.

(** C5: the history update of the [n + 1]-st chunk, from state [5 + n] to
    state [6 + n], keeps the length of the history and every message
    whose id is not the placeholder's id; a message with the placeholder's
    id keeps its id and role and gets the accumulated text. *)
Theorem chunk_update_frame (w : World) (rs : ResponseStream) (n : nat) (wa wb : World) :
  rejected (app w) = false ->
  sendMessageStream env (requests w) (userInput (app w)) = Resolves rs ->
  (n < length (chunks rs))%nat ->
  states (handleSendMessage env) w !! (5 + n)%nat = Some wa ->
  states (handleSendMessage env) w !! (6 + n)%nat = Some wb ->
  length (chatHistory (app wb)) = length (chatHistory (app wa))
  /\ forall (i : nat) (msg : Message),
      chatHistory (app wa) !! i = Some msg ->
      (id msg <> modelMessageId_of env w -> chatHistory (app wb) !! i = Some msg)
      /\ (id msg = modelMessageId_of env w ->
          chatHistory (app wb) !! i
          = Some {| id := id msg; role := role msg;
                    text := JS.concat (map text_of (take (S n) (chunks rs))) |}).
Proof.
  intros Hacc Hsend Hn Ha Hb.
  rewrite (state_after_chunk w rs n) in Ha by (done || lia).
  change (6 + n)%nat with (5 + S n)%nat in Hb.
  rewrite (state_after_chunk w rs (S n)) in Hb by (done || lia).
  injection Ha as <-. injection Hb as <-.
  destruct (lookup_lt_is_Some_2 (chunks rs) n Hn) as [c Hc].
  rewrite (take_S_r _ _ _ Hc). unfold streamed.
  rewrite after_chunks_snoc. simpl.
  set (h := chatHistory (app (after_chunks _ _ _ _ _))).
  unfold chunk_update. split; [by rewrite length_map|].
  intros i msg Hi. rewrite lookup_map, Hi. simpl.
  rewrite map_app, concat_app. simpl. rewrite append_nil_r.
  split; intros Hid.
  - apply String.eqb_neq in Hid. by rewrite Hid.
  - apply String.eqb_eq in Hid. by rewrite Hid.
Qed.

(** C6: an accepted call sets the busy flag with its third setter call,
    when no request has been sent yet; the call returns, having sent one
    request, and leaves the busy flag cleared, whether the request was
    rejected, the stream completed or the stream raised. *)
Theorem busy_flag_cycle (w : World) :
  rejected (app w) = false ->
  (exists wb,
      states (handleSendMessage env) w !! 3%nat = Some wb
      /\ isLoading (app wb) = true /\ requests wb = requests w)
  /\ completion (handleSendMessage env w) = Returned tt
  /\ requests (final (handleSendMessage env w)) = S (requests w)
  /\ isLoading (app (final (handleSendMessage env w))) = false.
Proof.
  intros Hacc. split.
  - exists (busy env w). split; [|done].
    assert (H : take 5 (states (handleSendMessage env) w) !! 3%nat
                = Some (busy env w))
      by (by rewrite take_states_accepted).
    by rewrite lookup_take_lt in H by lia.
  - destruct (sendMessageStream env (requests w) (userInput (app w)))
      as [|rs] eqn:Hsend.
    + rewrite run_send_rejects by done. simpl.
      by rewrite requests_ticks.
    + destruct (ending rs) eqn:Hend.
      * rewrite (run_stream_completes env w rs) by done. simpl.
        unfold streamed. by rewrite requests_after_chunks.
      * rewrite (run_stream_raises env w rs) by done. simpl.
        rewrite requests_ticks. simpl.
        unfold streamed. by rewrite requests_after_chunks.
Qed.

End Cycle.

(** ** Every commit is a setter call *)

Lemma last_cons_default {A} (l : list A) (x d : A) :
  List.last (x :: l) d = List.last l x.
Proof.
  revert x d. induction l as [|y l IH]; intros x d; [done|].
  change (List.last (y :: l) d = List.last (y :: l) x). by rewrite !IH.
Qed.

Lemma stepwise_app R w l1 l2 :
  stepwise R w l1 -> stepwise R (List.last l1 w) l2 -> stepwise R w (l1 ++ l2).
Proof.
  revert w. induction l1 as [|x l1 IH]; intros w H1 H2; [done|].
  destruct H1 as [Hx H1]. split; [done|]. apply IH; [done|].
  by rewrite <- (last_cons_default l1 x w).
Qed.

Lemma stepwise_impl (R R' : World -> World -> Prop) (P : World -> Prop) w l :
  (forall wa wb, P wa -> R wa wb -> R' wa wb /\ P wb) ->
  P w -> stepwise R w l -> stepwise R' w l.
Proof.
  intros HR. revert w. induction l as [|x l IH]; intros w HP H; [done|].
  destruct H as [Hx H]. destruct (HR _ _ HP Hx) as [Hx' HPx].
  split; [done|]. by apply IH.
Qed.

Section Commits.

Variable env : Env.

Lemma surviving_kept k h : surviving env k h = kept_by_filter env k h.
Proof.
  unfold kept_by_filter. revert k. induction h as [|msg h IH]; intros k; [done|].
  simpl. rewrite filter_cons. simpl.
  destruct (String.eqb_spec (id msg) (JS.toString (Date_now env k + 1))) as [He|He].
  - rewrite decide_False by (intros Hn; by apply Hn). apply IH.
  - rewrite decide_True by done. simpl. f_equal. apply IH.
Qed.

Lemma kept_by_filter_sublist k h : kept_by_filter env k h `sublist_of` h.
Proof.
  rewrite <- surviving_kept. revert k.
  induction h as [|msg h IH]; intros k; simpl; [done|].
  destruct (String.eqb _ _).
  - by apply sublist_cons.
  - by apply sublist_skip.
Qed.

(** When every reading the filter takes is [t], the filter removes the
    messages whose id is the string of [t + 1]. *)
Lemma kept_by_filter_same_time k h t :
  (forall j, (k <= j < k + length h)%nat -> Date_now env j = t) ->
  kept_by_filter env k h = filter (fun msg => id msg <> JS.toString (t + 1)) h.
Proof.
  rewrite <- surviving_kept. revert k.
  induction h as [|msg h IH]; intros k Ht; simpl; [done|].
  rewrite filter_cons, (Ht k) by (simpl; lia).
  rewrite IH by (intros j Hj; apply Ht; simpl; lia).
  destruct (String.eqb_spec (id msg) (JS.toString (t + 1))) as [He|He].
  - by rewrite decide_False by (intros Hn; by apply Hn).
  - by rewrite decide_True by done.
Qed.

(** A message whose id is not the id recomputed for its position stays. *)
Lemma kept_by_filter_elem k h (i : nat) msg :
  h !! i = Some msg ->
  id msg <> JS.toString (Date_now env (k + i) + 1) ->
  msg ∈ kept_by_filter env k h.
Proof.
  rewrite <- surviving_kept. revert k i.
  induction h as [|m h IH]; intros k i Hi Hne; [done|].
  destruct i as [|i]; simpl in *.
  - injection Hi as ->. rewrite Nat.add_0_r in Hne.
    apply String.eqb_neq in Hne. rewrite Hne. apply list_elem_of_here.
  - assert (msg ∈ surviving env (S k) h) as Hin.
    { apply (IH (S k) i Hi). by replace (S k + i)%nat with (k + S i)%nat by lia. }
    destruct (String.eqb _ _); [done|]. by apply list_elem_of_further.
Qed.


Lemma commit_update U wa w' updater :
  same_view wa w' ->
  U (chatHistory (app wa)) (updater (chatHistory (app wa))) ->
  commit_of env U wa (update_history env updater w').
Proof.
  intros Hv HU. unfold update_history. destruct Hv as [Happ Hc].
  rewrite Happ. by constructor.
Qed.

Lemma same_view_refl w : same_view w w.
Proof. done. Qed.

Lemma same_view_ticks n w : same_view w (ticks n w).
Proof. split; [apply app_ticks | apply container_ticks]. Qed.

Lemma last_chunk_commits mid cur cs w :
  List.last (chunk_commits env mid cur cs w) w = after_chunks env mid cur cs w.
Proof.
  revert cur w. induction cs as [|c cs IH]; intros cur w; [done|].
  cbn [chunk_commits after_chunks]. rewrite <- IH.
  apply last_cons_default.
Qed.

Lemma stepwise_chunk_commits U mid cur cs w :
  (forall h t, U h (chunk_update mid t h)) ->
  stepwise (commit_of env U) w (chunk_commits env mid cur cs w).
Proof.
  intros HU. revert cur w. induction cs as [|c cs IH]; intros cur w; [done|].
  split; [|apply IH]. apply commit_update; [apply same_view_refl | apply HU].
Qed.

Lemma last_greet_commits mid cur chars w :
  List.last (greet_commits env mid cur chars w) w = after_greet env mid cur chars w.
Proof.
  revert cur w. induction chars as [|c chars IH]; intros cur w; [done|].
  cbn [greet_commits after_greet]. rewrite <- IH.
  apply last_cons_default.
Qed.

End Commits.

(** ** Closed form of [initChat] *)

Section Init.

Variable env : Env.

Lemma run_initChat_created c w :
  chats_create env = Some c ->
  initChat env w
  = {| completion := Returned tt;
       final := idle env (greeted env c (JS.code_points welcomeMessage) w);
       commits :=
         [connected env c w; loading env c w; opened env c w]
         ++ greet_commits env (greeting_id env w) "" (JS.code_points welcomeMessage)
              (opened env c w)
         ++ [idle env (greeted env c (JS.code_points welcomeMessage) w)] |}.
Proof.
  intros Hc. unfold initChat, try_catch_finally, init_block, ai_chats_create.
  rewrite Hc, bind_ret. unfold setChat, setIsLoading.
  rewrite !bind_set_cell, bind_now, bind_setChatHistory, run_greet.
  reflexivity.
Qed.

Lemma run_initChat_throws w :
  chats_create env = None ->
  initChat env w
  = {| completion := Returned tt;
       final := idle env (init_failed env w);
       commits := [init_failed env w; idle env (init_failed env w)] |}.
Proof.
  intros Hc. unfold initChat, try_catch_finally, init_block, ai_chats_create.
  rewrite Hc. unfold console_error, setError.
  rewrite (bind_thrown throw) by done. cbn [completion final commits throw].
  by rewrite bind_ret.
Qed.

End Init.

(** ** The commits of the handlers *)

Section HandlerCommits.

Variable env : Env.
Variable U : list Message -> list Message -> Prop.
Hypothesis U_append : forall h msg, U h (h ++ [msg]).
Hypothesis U_replace : forall h mid t, U h (chunk_update mid t h).
Hypothesis U_filter : forall h k, U h (kept_by_filter env k h).

Lemma commit_put_cell f w :
  (forall s, chatHistory (f s) = chatHistory s) ->
  commit_of env U w (put_cell env f w).
Proof. intros Hf. by constructor. Qed.

Lemma commit_posted w : commit_of env U w (posted env w).
Proof. apply commit_update; [done | apply U_append]. Qed.

Lemma commit_placed w : commit_of env U (accepted env w) (placed env w).
Proof. apply commit_update; [done | apply U_append]. Qed.

Lemma commit_filtered wa w :
  same_view wa w -> commit_of env U (failed env wa) (filtered env w).
Proof.
  intros [Happ Hc]. unfold filtered. constructor.
  - split.
    + rewrite app_ticks. simpl. by rewrite Happ.
    + rewrite container_ticks. simpl. by rewrite Happ, Hc.
  - rewrite surviving_kept. simpl. rewrite Happ. apply U_filter.
Qed.

Lemma commit_failed wa w :
  same_view wa w -> commit_of env U wa (failed env w).
Proof. intros Hv. by constructor. Qed.

Lemma stepwise_handleSendMessage w :
  stepwise (commit_of env U) w (commits (handleSendMessage env w)).
Proof.
  destruct (rejected (app w)) eqn:Hacc; [by rewrite run_rejected|].
  destruct (sendMessageStream env (requests w) (userInput (app w)))
    as [|rs] eqn:Hsend.
  - rewrite run_send_rejects by done. cbn [commits stepwise].
    repeat split; try (by apply commit_put_cell).
    + apply commit_posted.
    + by apply commit_failed.
    + by apply commit_filtered.
  - assert (Hpre : forall rest,
               stepwise (commit_of env U) (streamed env (chunks rs) w) rest ->
               stepwise (commit_of env U) w
                 ([posted env w; cleared env w; busy env w; accepted env w;
                   placed env w]
                  ++ chunk_commits env (modelMessageId_of env w) "" (chunks rs)
                       (placed env w)
                  ++ rest)).
    { intros rest Hrest. cbn [stepwise List.app].
      repeat split; try (by apply commit_put_cell).
      - apply commit_posted.
      - apply commit_placed.
      - apply stepwise_app; [by apply stepwise_chunk_commits|].
        by rewrite last_chunk_commits. }
    destruct (ending rs) eqn:Hend.
    + rewrite (run_stream_completes env w rs) by done.
      apply Hpre. split; [by apply commit_put_cell | done].
    + rewrite (run_stream_raises env w rs) by done.
      apply Hpre. repeat split; try (by apply commit_put_cell).
      by apply commit_filtered.
Qed.

Lemma stepwise_greet_commits mid cur chars w :
  (forall t t', U [{| id := mid; role := model; text := t |}]
                  [{| id := mid; role := model; text := t' |}]) ->
  chatHistory (app w) = [{| id := mid; role := model; text := cur |}] ->
  stepwise (commit_of env U) w (greet_commits env mid cur chars w).
Proof.
  intros HU. revert cur w. induction chars as [|c chars IH]; intros cur w Hw; [done|].
  split.
  - apply commit_update; [done|]. rewrite Hw. apply HU.
  - by apply IH.
Qed.

Lemma stepwise_initChat w :
  (forall msg, U (chatHistory (app w)) [msg]) ->
  (forall mid t t', U [{| id := mid; role := model; text := t |}]
                      [{| id := mid; role := model; text := t' |}]) ->
  stepwise (commit_of env U) w (commits (initChat env w)).
Proof.
  intros Hfirst Hnext. destruct (chats_create env) as [c|] eqn:Hc.
  - rewrite (run_initChat_created env c) by done.
    generalize (JS.code_points welcomeMessage). intros chars.
    cbn [commits stepwise List.app].
    repeat split; try (by apply commit_put_cell).
    + apply commit_update; [done | apply Hfirst].
    + apply stepwise_app; [by apply stepwise_greet_commits|].
      rewrite last_greet_commits. split; [by apply commit_put_cell | done].
  - rewrite run_initChat_throws by done.
    repeat split; by apply commit_put_cell.
Qed.

End HandlerCommits.

(** ** Shapes of the history updates (C4) and the scroll effect (C7) *)

Section Updates.

Variable env : Env.






Lemma commit_scroll_follows wa wb :
  is_Some (container wa) ->
  commit_of env (fun _ _ => True) wa wb ->
  scroll_follows env wa wb /\ is_Some (container wb).
Proof.
  intros [d Hd] [f w' [Happ Hc] Hf | h w' [Happ Hc] _];
    unfold scroll_follows, scrolled_to_bottom; simpl; rewrite Hc, Hd; simpl.
  - split; [|by eexists]. intros Hne. destruct Hne. by rewrite Hf, Happ.
  - split; [|by eexists]. intros _. by eexists.
Qed.

(** C7: across every setter call of a form event or of [initChat] in a
    mounted component, when the chat history differs from the one before
    the call, the container's scroll position is its scroll height, the
    height of the thread as laid out with the new history. *)
Theorem scroll_follows_history (w : World) (ev : Event) :
  is_Some (container w) ->
  stepwise (scroll_follows env) w (commits (handle env ev w))
  /\ stepwise (scroll_follows env) w (commits (initChat env w)).
Proof.
  intros Hc. split.
  - apply (stepwise_impl (commit_of env (fun _ _ => True)) _
             (fun x => is_Some (container x))); [|done|].
    + intros wa wb. apply commit_scroll_follows.
    + destruct ev as [value|]; simpl.
      * split; [by apply commit_put_cell | done].
      * by apply stepwise_handleSendMessage.
  - apply (stepwise_impl (commit_of env (fun _ _ => True)) _
             (fun x => is_Some (container x))); [|done|].
    + intros wa wb. apply commit_scroll_follows.
    + by apply stepwise_initChat.
Qed.

End Updates.

(** ** Failure of the request (C8) *)

Section Failure.

Variable env : Env.

Lemma clock_reads_after_chunks mid cur cs w :
  clock_reads (after_chunks env mid cur cs w) = clock_reads w.
Proof.
  revert cur w. induction cs as [|c cs IH]; intros cur w; simpl; [done|].
  by rewrite IH.
Qed.

Lemma filtered_history w :
  chatHistory (app (idle env (filtered env w)))
  = kept_by_filter env (clock_reads w) (chatHistory (app w)).
Proof. simpl. apply surviving_kept. Qed.

Lemma filtered_error w :
  error (app (idle env (filtered env w))) = Some send_error.
Proof. simpl. by rewrite app_ticks. Qed.

(** C8: in an accepted call, when [sendMessageStream] rejects, or when the
    stream raises after its chunks, the call ends with the error state
    set to the fixed message and with the history that the filter of the
    catch branch keeps of the history at the time of the exception: the
    message at each position is tested against the string of (the clock
    reading taken for it, plus one), not against the placeholder's id.
    When the stream raised, the history at that time is state
    [5 + length (chunks rs)], the one after the last chunk received, and
    the placeholder with the text of those chunks is still in the final
    history when the id recomputed for its position is not its own. *)
Theorem send_failure (w : World) :
  rejected (app w) = false ->
  (sendMessageStream env (requests w) (userInput (app w)) = Rejects ->
   error (app (final (handleSendMessage env w)))
   = Some "An error occurred while sending the message. Please try again."
   /\ chatHistory (app (final (handleSendMessage env w)))
      = kept_by_filter env (S (clock_reads w))
          (chatHistory (app w) ++ [userMessage_of env w]))
  /\ (forall rs,
      sendMessageStream env (requests w) (userInput (app w)) = Resolves rs ->
      ending rs = Raises ->
      exists wt,
        states (handleSendMessage env) w !! (5 + length (chunks rs))%nat = Some wt
        /\ error (app (final (handleSendMessage env w)))
           = Some "An error occurred while sending the message. Please try again."
        /\ chatHistory (app (final (handleSendMessage env w)))
           = kept_by_filter env (S (S (clock_reads w))) (chatHistory (app wt))
        /\ (JS.toString
              (Date_now env (S (S (clock_reads w)) + S (length (chatHistory (app w))))
               + 1)
            <> modelMessageId_of env w ->
            {| id := modelMessageId_of env w; role := model;
               text := JS.concat (map GenerateContentResponse.text (chunks rs)) |}
            ∈ chatHistory (app (final (handleSendMessage env w))))).
Proof.
  intros Hacc. split.
  - intros Hsend. rewrite run_send_rejects by done. cbn [final].
    split; [apply filtered_error | apply filtered_history].
  - intros rs Hsend Hend. exists (streamed env (chunks rs) w).
    assert (Hs : clock_reads (streamed env (chunks rs) w) = S (S (clock_reads w)))
      by (unfold streamed; by rewrite clock_reads_after_chunks).
    split.
    { rewrite (state_after_chunk env w rs (length (chunks rs))) by (done || lia).
      by rewrite firstn_all. }
    rewrite (run_stream_raises env w rs) by done. cbn [final].
    rewrite filtered_history, Hs.
    split; [apply filtered_error|]. split; [done|].
    intros Hne. eapply kept_by_filter_elem.
    + apply (after_chunks_placeholder env _ "" _ _ _ model), placed_placeholder.
    + intros Heq. apply Hne. symmetry. exact Heq.
Qed.

End Failure.

(** ** Initialization (C9, C10) *)

Section Initialization.

Variable env : Env.

Lemma after_greet_history mid cur chars w :
  chatHistory (app w) = [{| id := mid; role := model; text := cur |}] ->
  chatHistory (app (after_greet env mid cur chars w))
  = [{| id := mid; role := model; text := cur +:+ JS.concat chars |}].
Proof.
  revert cur w. induction chars as [|c chars IH]; intros cur w Hw; simpl.
  - by rewrite append_nil_r.
  - rewrite <- append_assoc. by apply IH.
Qed.

Lemma chat_after_greet mid cur chars w :
  chat (app (after_greet env mid cur chars w)) = chat (app w).
Proof.
  revert cur w. induction chars as [|c chars IH]; intros cur w; simpl; [done|].
  by rewrite IH.
Qed.

Lemma state_after_char c chars w (k : nat) :
  (k <= length chars)%nat ->
  (w :: [connected env c w; loading env c w; opened env c w]
        ++ greet_commits env (greeting_id env w) "" chars (opened env c w)
        ++ [idle env (greeted env c chars w)]) !! (3 + k)%nat
  = Some (greeted env c (take k chars) w).
Proof.
  intros Hk. destruct k as [|k]; [done|].
  change ((w :: [connected env c w; loading env c w; opened env c w] ++ ?l) !! _)
    with (l !! k).
  rewrite lookup_app_l by (rewrite length_greet_commits; lia).
  apply lookup_greet_commits. lia.
Qed.

(** C9: when the session is created, after [k] steps of the greeting loop
    (state [3 + k] of [initChat]: [setChat], [setIsLoading] and the empty
    greeting come first) the chat history is one message with role
    [model] whose text is the first [k] characters of the greeting; the
    call ends with one message carrying the whole greeting, the session
    stored and the busy flag cleared. *)
Theorem initChat_greeting (w : World) (c : Chat) (k : nat) :
  chats_create env = Some c ->
  (k <= length (JS.code_points welcomeMessage))%nat ->
  (exists wk,
      states (initChat env) w !! (3 + k)%nat = Some wk
      /\ chatHistory (app wk)
         = [{| id := JS.toString (Date_now env (clock_reads w)); role := model;
               text := JS.concat (take k (JS.code_points welcomeMessage)) |}])
  /\ completion (initChat env w) = Returned tt
  /\ chatHistory (app (final (initChat env w)))
     = [{| id := JS.toString (Date_now env (clock_reads w)); role := model;
           text := welcomeMessage |}]
  /\ chat (app (final (initChat env w))) = Some c
  /\ isLoading (app (final (initChat env w))) = false.
Proof.
  intros Hc Hk. unfold states. rewrite (run_initChat_created env c) by done.
  cbn [completion final commits].
  pose proof (concat_code_points welcomeMessage) as Hw.
  revert Hk Hw. generalize (JS.code_points welcomeMessage). intros chars Hk <-.
  split; [|split; [done|split; [|split; [|done]]]].
  - exists (greeted env c (take k chars) w).
    split; [by apply state_after_char|].
    by apply (after_greet_history _ ""%string).
  - by apply (after_greet_history _ ""%string).
  - unfold idle, greeted. simpl. by rewrite chat_after_greet.
Qed.

(** The form events leave an uninitialized session uninitialized. *)
Lemma handle_all_uninitialized evs w :
  chat (app w) = None ->
  chat (app (handle_all env evs w)) = None
  /\ chatHistory (app (handle_all env evs w)) = chatHistory (app w).
Proof.
  revert w. induction evs as [|ev evs IH]; intros w Hw; [done|].
  destruct ev as [value|]; cbn [handle_all handle].
  - change (final (setUserInput env value w))
      with (put_cell env (with_userInput value) w).
    destruct (IH (put_cell env (with_userInput value) w) Hw) as [H1 H2].
    by rewrite H1, H2.
  - rewrite run_rejected by (apply rejected_true; auto). by apply IH.
Qed.

(** C10: when creating the session throws, [initChat] ends with the error
    state set to the fixed message, the history empty, the session null
    and the busy flag cleared; after any form events that follow, the
    session is still null, the history still empty, and
    [handleSendMessage] does nothing. *)
Theorem initChat_failure (d : Container) (evs : list Event) :
  chats_create env = None ->
  app (final (initChat env (mounted d)))
  = {| chat := None; userInput := ""; chatHistory := []; isLoading := false;
       error := Some "Failed to initialize the chat. Please ensure your API key is set up correctly." |}
  /\ let w := handle_all env evs (final (initChat env (mounted d))) in
     chat (app w) = None
     /\ chatHistory (app w) = []
     /\ handleSendMessage env w
        = {| completion := Returned tt; final := w; commits := [] |}.
Proof.
  intros Hc. rewrite run_initChat_throws by done. split; [done|].
  cbn [final].
  destruct (handle_all_uninitialized evs (idle env (init_failed env (mounted d))))
    as [H1 H2]; [done|].
  cbv zeta. split; [done|]. split; [by rewrite H2|].
  apply run_rejected, rejected_true. auto.
Qed.

End Initialization.

(** ** Concrete runs *)

Example trim_example :
  JS.trim (JS.bytes [32; 9; 72; 105; 32; 33; 194; 160; 10]%nat) = "Hi !".
Proof. reflexivity. Qed.

Example code_points_welcomeMessage :
  length (JS.code_points welcomeMessage) = 37%nat.
Proof. reflexivity. Qed.

Example demo_completes :
  map (fun w => (chatHistory (app w), isLoading (app w)))
      (drop 5 (states (handleSendMessage Demo.env_ok) Demo.ready))
  = [ ([Demo.greeting;
        {| id := "1700000000040"; role := user; text := "Hi" |};
        {| id := "1700000000081"; role := model; text := "" |}], true);
      ([Demo.greeting;
        {| id := "1700000000040"; role := user; text := "Hi" |};
        {| id := "1700000000081"; role := model; text := "Hel" |}], true);
      ([Demo.greeting;
        {| id := "1700000000040"; role := user; text := "Hi" |};
        {| id := "1700000000081"; role := model; text := "Hello" |}], true);
      ([Demo.greeting;
        {| id := "1700000000040"; role := user; text := "Hi" |};
        {| id := "1700000000081"; role := model; text := "Hello" |}], false) ].
Proof. vm_compute. reflexivity. Qed.

(** The stream raises while the clock stands still: the filter removes the
    placeholder; with a running clock the placeholder stays. *)
Example demo_raises_same_millisecond :
  chatHistory (app (final (handleSendMessage (Demo.env_raising Demo.standing_clock) Demo.ready)))
  = [Demo.greeting; {| id := "1700000000000"; role := user; text := "Hi" |}].
Proof. vm_compute. reflexivity. Qed.

Example demo_raises_later :
  chatHistory (app (final (handleSendMessage (Demo.env_raising Demo.running_clock) Demo.ready)))
  = [Demo.greeting;
     {| id := "1700000000040"; role := user; text := "Hi" |};
     {| id := "1700000000081"; role := model; text := "Hel" |}].
Proof. vm_compute. reflexivity. Qed.

(** ** The theorems at concrete runs *)


Lemma handleSendMessage_guard_witness :
  JS.trim (userInput (app Demo.blank)) = ""
  /\ handleSendMessage Demo.env_ok Demo.blank
     = {| completion := Returned tt; final := Demo.blank; commits := [] |}.
Proof.
  split; [reflexivity|].
  apply handleSendMessage_guard. right; left. reflexivity.
Defined.

Lemma user_message_then_placeholder_witness :
  exists wp,
    states (handleSendMessage Demo.env_ok) Demo.ready !! 5%nat = Some wp
    /\ chatHistory (app wp)
       = [Demo.greeting;
          {| id := "1700000000040"; role := user; text := "Hi" |};
          {| id := "1700000000081"; role := model; text := "" |}].
Proof.
  destruct (user_message_then_placeholder Demo.env_ok Demo.ready) as [_ H];
    [reflexivity|].
  exact (H _ eq_refl).
Defined.

(** C3 as worded fails when the request is rejected: the call is accepted,
    and no state of it has a placeholder after the user's message. *)
Lemma placeholder_after_accept_counterexample :
  rejected (app Demo.ready) = false
  /\ ~ placeholder_after_accept Demo.env_rejecting Demo.ready.
Proof.
  split; [reflexivity|].
  intros (wp & um & pm & Hin & Hh & _).
  unfold states in Hin. rewrite run_send_rejects in Hin by reflexivity.
  cbn [commits] in Hin.
  repeat (apply elem_of_cons in Hin as [-> | Hin]);
    [..|by apply elem_of_nil in Hin];
    vm_compute in Hh; discriminate Hh.
Qed.



Lemma chunk_update_frame_witness :
  exists wa wb,
    states (handleSendMessage Demo.env_ok) Demo.ready !! 6%nat = Some wa
    /\ states (handleSendMessage Demo.env_ok) Demo.ready !! 7%nat = Some wb
    /\ chatHistory (app wa) !! 0%nat = Some Demo.greeting
    /\ chatHistory (app wb) !! 0%nat = Some Demo.greeting.
Proof.
  eexists _, _. split; [reflexivity|]. split; [reflexivity|].
  split; [reflexivity|].
  refine (proj1 (proj2 (chunk_update_frame Demo.env_ok Demo.ready
                 {| chunks := [Demo.chunk "Hel"; Demo.chunk "lo"]; ending := Completes |}
                 1 _ _ _ _ _ _ _) 0%nat Demo.greeting _) _);
    try reflexivity.
  - simpl. lia.
  - vm_compute. discriminate.
Defined.

Lemma busy_flag_cycle_witness :
  completion (handleSendMessage Demo.env_rejecting Demo.ready) = Returned tt
  /\ isLoading (app (final (handleSendMessage Demo.env_rejecting Demo.ready))) = false.
Proof.
  destruct (busy_flag_cycle Demo.env_rejecting Demo.ready) as (_ & H1 & _ & H2);
    [reflexivity|].
  split; [exact H1 | exact H2].
Defined.

Lemma scroll_follows_history_witness :
  stepwise (scroll_follows Demo.env_ok) Demo.ready
    (commits (handle Demo.env_ok Submitted Demo.ready))
  /\ stepwise (scroll_follows Demo.env_ok) Demo.ready
       (commits (initChat Demo.env_ok Demo.ready)).
Proof.
  apply scroll_follows_history. simpl. by eexists.
Defined.

Lemma send_failure_witness :
  error (app (final (handleSendMessage (Demo.env_raising Demo.running_clock) Demo.ready)))
  = Some "An error occurred while sending the message. Please try again."
  /\ {| id := "1700000000081"; role := model; text := "Hel" |}
     ∈ chatHistory
         (app (final (handleSendMessage (Demo.env_raising Demo.running_clock) Demo.ready))).
Proof.
  destruct (send_failure (Demo.env_raising Demo.running_clock) Demo.ready eq_refl)
    as [_ H].
  destruct (H _ eq_refl eq_refl) as (wt & _ & Herr & _ & Hkeep).
  split; [exact Herr|].
  apply Hkeep. vm_compute. discriminate.
Defined.

Lemma initChat_greeting_witness :
  (exists wk,
      states (initChat Demo.env_ok) (mounted Demo.unmounted_container) !! 8%nat
      = Some wk
      /\ chatHistory (app wk)
         = [{| id := "1700000000000"; role := model; text := "Hello" |}])
  /\ isLoading (app (final (initChat Demo.env_ok (mounted Demo.unmounted_container))))
     = false.
Proof.
  destruct (initChat_greeting Demo.env_ok (mounted Demo.unmounted_container)
              Demo.session 5)
    as (H1 & _ & _ & _ & H2); [reflexivity | vm_compute; lia |].
  split; [exact H1 | exact H2].
Defined.

Lemma initChat_failure_witness :
  let w := handle_all Demo.env_no_key [Typed "Hi"; Submitted; Typed "Hi!"; Submitted]
             (final (initChat Demo.env_no_key (mounted Demo.unmounted_container))) in
  chatHistory (app w) = []
  /\ handleSendMessage Demo.env_no_key w
     = {| completion := Returned tt; final := w; commits := [] |}.
Proof.
  destruct (initChat_failure Demo.env_no_key Demo.unmounted_container
              [Typed "Hi"; Submitted; Typed "Hi!"; Submitted] eq_refl)
    as (_ & _ & H1 & H2).
  split; [exact H1 | exact H2].
Defined.

(** ** More of the request cycle *)

Lemma toString_inj (n m : Z) : JS.toString n = JS.toString m -> n = m.
Proof. unfold JS.toString. apply (inj pretty). Qed.

Lemma chunk_update_fresh mid t h :
  Forall (fun msg => id msg <> mid) h -> chunk_update mid t h = h.
Proof.
  induction 1 as [|msg h Hm _ IH]; [done|].
  unfold chunk_update in *. simpl. rewrite IH.
  apply String.eqb_neq in Hm. by rewrite Hm.
Qed.

Lemma chunk_update_app mid t h1 h2 :
  chunk_update mid t (h1 ++ h2) = chunk_update mid t h1 ++ chunk_update mid t h2.
Proof. apply map_app. Qed.

Lemma id_chunk_update mid t h : map id (chunk_update mid t h) = map id h.
Proof.
  unfold chunk_update. rewrite map_map. apply map_ext.
  intros msg. by destruct (String.eqb _ _).
Qed.

Section CycleFrame.

Variable env : Env.

(** The loop over the chunks touches the history only. *)
Lemma app_after_chunks mid cur cs w :
  app (after_chunks env mid cur cs w)
  = with_chatHistory (chatHistory (app (after_chunks env mid cur cs w))) (app w).
Proof.
  revert cur w. induction cs as [|c cs IH]; intros cur w; simpl.
  - by destruct (app w).
  - by rewrite IH.
Qed.

Lemma container_after_chunks mid cur cs w :
  is_Some (container w) -> is_Some (container (after_chunks env mid cur cs w)).
Proof.
  revert cur w. induction cs as [|c cs IH]; intros cur w Hc; simpl; [done|].
  apply IH. destruct Hc as [d Hd]. simpl. rewrite Hd. by eexists.
Qed.

Lemma id_after_chunks mid cur cs w :
  map id (chatHistory (app (after_chunks env mid cur cs w)))
  = map id (chatHistory (app w)).
Proof.
  revert cur w. induction cs as [|c cs IH]; intros cur w; simpl; [done|].
  rewrite IH. simpl. apply id_chunk_update.
Qed.

(** With a fresh placeholder id, the loop rewrites the placeholder alone. *)
Lemma after_chunks_fresh mid cur cs w h :
  chatHistory (app w) = h ++ [{| id := mid; role := model; text := cur |}] ->
  Forall (fun msg => id msg <> mid) h ->
  chatHistory (app (after_chunks env mid cur cs w))
  = h ++ [{| id := mid; role := model;
             text := cur +:+ JS.concat (map text_of cs) |}].
Proof.
  revert cur w. induction cs as [|c cs IH]; intros cur w Hw Hh; simpl.
  - by rewrite append_nil_r.
  - rewrite <- append_assoc. apply IH; [|done]. simpl.
    rewrite Hw, chunk_update_app, chunk_update_fresh by done.
    simpl. by rewrite String.eqb_refl.
Qed.

(** Every world committed by the loop is the world after some chunks. *)
Lemma elem_of_chunk_commits mid cur cs w w' :
  w' ∈ chunk_commits env mid cur cs w ->
  exists n, w' = after_chunks env mid cur (take n cs) w.
Proof.
  intros Hin. apply list_elem_of_lookup in Hin as [n Hn].
  assert (n < length cs)%nat as Hlt.
  { rewrite <- (length_chunk_commits env mid cur cs w). by eapply lookup_lt_Some. }
  rewrite lookup_chunk_commits in Hn by done. exists (S n). congruence.
Qed.



End CycleFrame.

(** ** The form while a request is outstanding *)

Section Form.

Variable env : Env.

Lemma buttonDisabled_rejected (s : AppState) : buttonDisabled s = rejected s.
Proof.
  unfold buttonDisabled, rejected, no_chat.
  by destruct (isLoading s), (String.eqb _ _), (chat s).
Qed.

(** X5: the send button is disabled exactly when [handleSendMessage]
    would do nothing: the button's condition and the handler's guard
    agree. *)
Theorem send_button_matches_guard (w : World) :
  buttonDisabled (app w) = true <-> handleSendMessage env w = nothing_done w.
Proof.
  rewrite buttonDisabled_rejected. split.
  - apply run_rejected.
  - intros Hrun. destruct (rejected (app w)) eqn:Hacc; [done|].
    rewrite run_accepted in Hrun by done.
    apply (f_equal commits) in Hrun. discriminate Hrun.
Qed.

Lemma busy_world_blocks (wi : World) :
  isLoading (app wi) = true ->
  isLoading (app wi) = true
  /\ inputDisabled (app wi) = true
  /\ buttonDisabled (app wi) = true
  /\ forall env', handleSendMessage env' wi = nothing_done wi.
Proof.
  intros Hl. split; [done|]. unfold inputDisabled, buttonDisabled.
  rewrite Hl. split; [done|]. split; [done|].
  intros env'. apply run_rejected, rejected_true. auto.
Qed.

Lemma app_filtered w :
  app (filtered env w)
  = with_chatHistory (surviving env (clock_reads w) (chatHistory (app w)))
      (with_error (Some send_error) (app w)).
Proof. unfold filtered, put_history. cbn [app]. by rewrite app_ticks. Qed.

Lemma isLoading_chunk_commits mid cur cs w :
  isLoading (app w) = true ->
  Forall (fun wi => isLoading (app wi) = true) (chunk_commits env mid cur cs w).
Proof.
  intros Hl. apply Forall_forall. intros wi Hin.
  apply elem_of_chunk_commits in Hin as [n ->].
  by rewrite app_after_chunks.
Qed.

(** X3: the states of an accepted call are the start, the state with the
    user's message appended, the state with the input cleared, at least
    two states that all have the busy flag set, and the last state, with
    the flag cleared.  In every state with the flag set the input field
    and the send button are disabled; in those states, in the state with
    the input cleared and in the last state, a submission does nothing,
    whatever the service would answer. *)
Theorem cycle_blocks_submissions (w : World) :
  rejected (app w) = false ->
  exists w1 w2 middle wl,
    states (handleSendMessage env) w = w :: w1 :: w2 :: middle ++ [wl]
    /\ (2 <= length middle)%nat
    /\ (forall env', handleSendMessage env' w2 = nothing_done w2)
    /\ Forall (fun wi =>
                 isLoading (app wi) = true
                 /\ inputDisabled (app wi) = true
                 /\ buttonDisabled (app wi) = true
                 /\ forall env', handleSendMessage env' wi = nothing_done wi)
              middle
    /\ isLoading (app wl) = false
    /\ (forall env', handleSendMessage env' wl = nothing_done wl).
Proof.
  intros Hacc.
  assert (Hclear : forall x, userInput (app x) = ""%string ->
            forall env', handleSendMessage env' x = nothing_done x).
  { intros x Hx env'. apply run_rejected, rejected_true. left. by rewrite Hx. }
  exists (posted env w), (cleared env w).
  destruct (sendMessageStream env (requests w) (userInput (app w)))
    as [|rs] eqn:Hsend.
  - set (r := requested (accepted env w)).
    exists [busy env w; accepted env w; failed env r; filtered env r],
           (idle env (filtered env r)).
    unfold states. rewrite run_send_rejects by done.
    split; [done|]. split; [simpl; lia|]. split; [by apply Hclear|].
    split; [|split; [done|]].
    + repeat apply Forall_cons_2; try apply Forall_nil_2;
        apply busy_world_blocks; try done.
      by rewrite app_filtered.
    + apply Hclear. unfold idle. cbn [app put_cell]. by rewrite app_filtered.
  - set (p := placed env w).
    set (s := streamed env (chunks rs) w).
    assert (Hs : app s = with_chatHistory (chatHistory (app s)) (app p))
      by apply app_after_chunks.
    assert (Hmid : Forall (fun wi => isLoading (app wi) = true)
                     ([busy env w; accepted env w; p]
                      ++ chunk_commits env (modelMessageId_of env w) "" (chunks rs) p)).
    { apply Forall_app. split; [by repeat constructor|].
      by apply isLoading_chunk_commits. }
    destruct (ending rs) eqn:Hend.
    + exists ([busy env w; accepted env w; p]
              ++ chunk_commits env (modelMessageId_of env w) "" (chunks rs) p),
             (idle env s).
      unfold states. rewrite (run_stream_completes env w rs) by done.
      split; [by rewrite <- app_assoc|]. split; [simpl; lia|].
      split; [by apply Hclear|]. split; [|split; [done|]].
      * eapply Forall_impl; [exact Hmid|]. intros x. apply busy_world_blocks.
      * apply Hclear. unfold idle. cbn [app put_cell]. by rewrite Hs.
    + exists (([busy env w; accepted env w; p]
               ++ chunk_commits env (modelMessageId_of env w) "" (chunks rs) p)
              ++ [failed env s; filtered env s]),
             (idle env (filtered env s)).
      unfold states. rewrite (run_stream_raises env w rs) by done.
      split; [by rewrite <- !app_assoc|].
      split; [rewrite !length_app; simpl; lia|].
      split; [by apply Hclear|]. split; [|split; [done|]].
      * apply Forall_app. split.
        { eapply Forall_impl; [exact Hmid|]. intros x. apply busy_world_blocks. }
        repeat apply Forall_cons_2; try apply Forall_nil_2;
          apply busy_world_blocks.
        -- unfold failed. cbn [app put_cell]. by rewrite Hs.
        -- rewrite app_filtered. by rewrite Hs.
      * apply Hclear. unfold idle. cbn [app put_cell].
        rewrite app_filtered. by rewrite Hs.
Qed.

Lemma length_after_chunks mid cur cs w :
  length (chatHistory (app (after_chunks env mid cur cs w)))
  = length (chatHistory (app w)).
Proof.
  rewrite <- (length_map id), id_after_chunks. apply length_map.
Qed.

Lemma showLoadingDots_last (s : AppState) h msg :
  chatHistory s = h ++ [msg] ->
  showLoadingDots s = isLoading s && is_user (role msg).
Proof.
  intros Hs. unfold showLoadingDots. rewrite Hs, length_app. simpl.
  replace (length h + 1 - 1)%nat with (length h + 0)%nat by lia.
  rewrite lookup_app_r, Nat.add_comm by lia. simpl.
  replace (length h + 0 - length h)%nat with 0%nat by lia. simpl.
  destruct (length h + 1)%nat eqn:Hl; [lia|]. simpl.
  by rewrite andb_true_r.
Qed.

Lemma showLoadingDots_model (s : AppState) msg :
  chatHistory s !! (length (chatHistory s) - 1)%nat = Some msg ->
  role msg = model ->
  showLoadingDots s = false.
Proof.
  intros Hs Hr. unfold showLoadingDots. rewrite Hs, Hr. simpl.
  by rewrite andb_false_r.
Qed.

(** X4: in an accepted call whose stream starts, the loading indicator is
    shown once the busy flag is set (states 3 and 4: the last message is
    the user's), it is hidden from the moment the placeholder is appended
    and after every chunk (states 5 and later: the last message is the
    model's), and it is hidden when the call has ended. *)
Theorem loading_indicator (w : World) (rs : ResponseStream) :
  rejected (app w) = false ->
  sendMessageStream env (requests w) (userInput (app w)) = Resolves rs ->
  (exists w3 w4,
      states (handleSendMessage env) w !! 3%nat = Some w3
      /\ states (handleSendMessage env) w !! 4%nat = Some w4
      /\ showLoadingDots (app w3) = true
      /\ showLoadingDots (app w4) = true)
  /\ (forall (n : nat) wn,
        (n <= length (chunks rs))%nat ->
        states (handleSendMessage env) w !! (5 + n)%nat = Some wn ->
        showLoadingDots (app wn) = false)
  /\ showLoadingDots (app (final (handleSendMessage env w))) = false.
Proof.
  intros Hacc Hsend. split; [|split].
  - exists (busy env w), (accepted env w).
    assert (H : take 5 (states (handleSendMessage env) w)
                = [w; posted env w; cleared env w; busy env w; accepted env w])
      by (by apply take_states_accepted).
    split; [by rewrite <- (lookup_take_lt _ 5), H by lia|].
    split; [by rewrite <- (lookup_take_lt _ 5), H by lia|].
    split; by rewrite (showLoadingDots_last _ (chatHistory (app w)) (userMessage_of env w)).
  - intros n wn Hn Hwn.
    rewrite (state_after_chunk env w rs n) in Hwn by done. injection Hwn as <-.
    eapply showLoadingDots_model.
    + unfold streamed. rewrite length_after_chunks, placed_history, length_app.
      simpl. replace (length (chatHistory (app w)) + 2 - 1)%nat
        with (S (length (chatHistory (app w)))) by lia.
      apply (after_chunks_placeholder env _ ""%string _ _ _ model), placed_placeholder.
    + reflexivity.
  - destruct (ending rs) eqn:Hend.
    + by rewrite (run_stream_completes env w rs).
    + by rewrite (run_stream_raises env w rs).
Qed.

End Form.

(** ** Ids, keys and the clock *)

Lemma sublist_map {A B} (f : A -> B) (l k : list A) :
  l `sublist_of` k -> map f l `sublist_of` map f k.
Proof.
  induction 1; simpl; [constructor | by apply sublist_skip | by apply sublist_cons].
Qed.

Lemma elem_of_map_inv {A B} (f : A -> B) (l : list A) (y : B) :
  y ∈ map f l -> exists x, x ∈ l /\ f x = y.
Proof.
  intros Hin. apply list_elem_of_In, in_map_iff in Hin as (x & Hx & Hin).
  exists x. split; [by apply list_elem_of_In | done].
Qed.

Lemma made_before_mono b b' msg :
  b <= b' -> made_before b msg -> made_before b' msg.
Proof. intros Hb (z & Hz & Hlt). exists z. split; [done | lia]. Qed.

Section Keys.

Variable env : Env.

Lemma surviving_sublist k h : surviving env k h `sublist_of` h.
Proof. rewrite surviving_kept. apply kept_by_filter_sublist. Qed.

Lemma surviving_app k h1 h2 :
  surviving env k (h1 ++ h2)
  = surviving env k h1 ++ surviving env (k + length h1) h2.
Proof.
  revert k. induction h1 as [|msg h1 IH]; intros k; simpl.
  - by rewrite Nat.add_0_r.
  - rewrite IH. replace (S k + length h1)%nat with (k + S (length h1))%nat by lia.
    by destruct (String.eqb _ _).
Qed.

Lemma surviving_keeps k h :
  (forall msg (j : nat), msg ∈ h -> (k <= j)%nat ->
     id msg <> JS.toString (Date_now env j + 1)) ->
  surviving env k h = h.
Proof.
  revert k. induction h as [|msg h IH]; intros k Hk; simpl; [done|].
  assert (id msg <> JS.toString (Date_now env k + 1)) as Hne
    by (apply Hk; [apply list_elem_of_here | lia]).
  apply String.eqb_neq in Hne. rewrite Hne. f_equal.
  apply IH. intros m j Hm Hj. apply Hk; [by apply list_elem_of_further | lia].
Qed.

(** The ids of every state of a call are among the ids found, the id of
    the user's message and the id of the placeholder, in this order. *)
Lemma states_ids w wi :
  wi ∈ states (handleSendMessage env) w ->
  map id (chatHistory (app wi))
  `sublist_of` map id (chatHistory (app w)
                       ++ [userMessage_of env w; placeholder_of env w]).
Proof.
  set (H := chatHistory (app w)).
  set (u := userMessage_of env w). set (p := placeholder_of env w).
  assert (HH : map id H `sublist_of` map id (H ++ [u; p]))
    by (apply sublist_map, sublist_inserts_r; done).
  assert (Hu : map id (H ++ [u]) `sublist_of` map id (H ++ [u; p])).
  { apply sublist_map. change [u; p] with ([u] ++ [p]).
    rewrite app_assoc. by apply sublist_inserts_r. }
  assert (Hfil : forall s, map id (chatHistory (app s)) `sublist_of` map id (H ++ [u; p]) ->
            map id (chatHistory (app (filtered env s))) `sublist_of` map id (H ++ [u; p])).
  { intros s Hs. rewrite app_filtered. cbn [chatHistory with_chatHistory].
    etrans; [|exact Hs]. apply sublist_map, surviving_sublist. }
  unfold states. intros Hin.
  destruct (rejected (app w)) eqn:Hacc.
  { rewrite run_rejected in Hin by done. cbn [commits] in Hin.
    apply list_elem_of_singleton in Hin as ->. exact HH. }
  destruct (sendMessageStream env (requests w) (userInput (app w)))
    as [|rs] eqn:Hsend.
  - rewrite run_send_rejects in Hin by done. cbn [commits] in Hin.
    repeat (apply elem_of_cons in Hin as [-> | Hin]);
      [exact HH | exact Hu | exact Hu | exact Hu | exact Hu | exact Hu
      | by apply Hfil | by apply (Hfil (requested (accepted env w)))
      | by apply elem_of_nil in Hin].
  - assert (Hp : chatHistory (app (placed env w)) = H ++ [u; p])
      by apply placed_history.
    assert (Hs : forall cs,
              map id (chatHistory (app (streamed env cs w))) = map id (H ++ [u; p])).
    { intros cs. unfold streamed. by rewrite id_after_chunks, Hp. }
    assert (Hpre : forall rest,
              (forall x, x ∈ rest ->
                 map id (chatHistory (app x)) `sublist_of` map id (H ++ [u; p])) ->
              wi ∈ w :: ([posted env w; cleared env w; busy env w; accepted env w;
                          placed env w]
                         ++ chunk_commits env (modelMessageId_of env w) "" (chunks rs)
                              (placed env w)
                         ++ rest) ->
              map id (chatHistory (app wi)) `sublist_of` map id (H ++ [u; p])).
    { intros rest Hrest Hwi. cbn [List.app] in Hwi.
      do 6 (apply elem_of_cons in Hwi as [-> | Hwi];
            [first [exact HH | exact Hu | by rewrite Hp]|]).
      apply elem_of_app in Hwi as [Hwi | Hwi]; [|by apply Hrest].
      apply elem_of_chunk_commits in Hwi as [n ->].
      by rewrite id_after_chunks, Hp. }
    destruct (ending rs) eqn:Hend.
    + rewrite (run_stream_completes env w rs) in Hin by done.
      refine (Hpre [idle env (streamed env (chunks rs) w)] _ Hin). intros x Hx.
      apply list_elem_of_singleton in Hx as ->.
      change (chatHistory (app (idle env (streamed env (chunks rs) w))))
        with (chatHistory (app (streamed env (chunks rs) w))).
      by rewrite Hs.
    + rewrite (run_stream_raises env w rs) in Hin by done.
      refine (Hpre _ _ Hin). intros x Hx.
      assert (Hlast : map id (chatHistory (app (streamed env (chunks rs) w)))
                      `sublist_of` map id (H ++ [u; p])) by (by rewrite Hs).
      repeat (apply elem_of_cons in Hx as [-> | Hx]);
        [exact Hlast | by apply Hfil | by apply (Hfil _ Hlast)
        | by apply elem_of_nil in Hx].
Qed.

End Keys.

Section KeysAndFailure.

Variable env : Env.

Lemma ids_of_call_unique w :
  NoDup (map id (chatHistory (app w))) ->
  Forall (made_before (Date_now env (clock_reads w))) (chatHistory (app w)) ->
  Date_now env (clock_reads w) <= Date_now env (S (clock_reads w)) ->
  NoDup (map id (chatHistory (app w)
                 ++ [userMessage_of env w; placeholder_of env w])).
Proof.
  intros Hnd Hbefore Hclock. rewrite map_app. apply NoDup_app.
  split; [done|]. split.
  - intros x Hx Hin. apply elem_of_map_inv in Hx as (msg & Hmsg & <-).
    rewrite Forall_forall in Hbefore.
    destruct (Hbefore msg Hmsg) as (z & Hz & Hlt). rewrite Hz in Hin.
    simpl in Hin. unfold modelMessageId_of in Hin.
    apply elem_of_cons in Hin as [Hin | Hin].
    + apply toString_inj in Hin. lia.
    + apply list_elem_of_singleton, toString_inj in Hin. lia.
  - simpl. unfold modelMessageId_of. apply NoDup_cons. split.
    + intros Hin. apply list_elem_of_singleton, toString_inj in Hin. lia.
    + apply NoDup_singleton.
Qed.

(** X2: when the keys of the messages found are pairwise distinct and
    their ids were made from clock readings before the first reading of
    the call, and the second reading is not before the first, then in
    every state of the call the React keys of the thread are pairwise
    distinct, and every id is of a reading below the second reading plus
    two. *)
Theorem message_keys_unique (w wi : World) :
  NoDup (messageKeys (app w)) ->
  Forall (made_before (Date_now env (clock_reads w))) (chatHistory (app w)) ->
  Date_now env (clock_reads w) <= Date_now env (S (clock_reads w)) ->
  wi ∈ states (handleSendMessage env) w ->
  NoDup (messageKeys (app wi))
  /\ Forall (made_before (Date_now env (S (clock_reads w)) + 2))
            (chatHistory (app wi)).
Proof.
  intros Hnd Hbefore Hclock Hin. pose proof (states_ids env w wi Hin) as Hsub.
  split.
  - eapply sublist_NoDup; [|exact Hsub]. by apply ids_of_call_unique.
  - apply Forall_forall. intros msg Hmsg.
    assert (id msg ∈ map id (chatHistory (app wi))) as Hid
      by (apply list_elem_of_In, in_map, list_elem_of_In; done).
    eapply elem_of_sublist in Hid; [|exact Hsub].
    apply elem_of_map_inv in Hid as (m & Hm & Heq).
    assert (made_before (Date_now env (S (clock_reads w)) + 2) m) as (z & Hz & Hlt).
    { apply elem_of_app in Hm as [Hm | Hm].
      - rewrite Forall_forall in Hbefore.
        eapply made_before_mono; [|by apply Hbefore]. lia.
      - apply elem_of_cons in Hm as [-> | Hm].
        + eexists. split; [reflexivity | lia].
        + apply list_elem_of_singleton in Hm as ->.
          eexists. split; [reflexivity | lia]. }
    exists z. split; [congruence | done].
Qed.

(** X7: an accepted call that fails, when the ids found were made from
    clock readings before the first reading of the call and no later
    reading is before that one, removes nothing but possibly the
    placeholder: after a rejected request the history is the one found
    followed by the user's message; after a stream that raised it is
    that, alone or followed by the placeholder with the text of the
    chunks received. *)
Theorem failure_keeps_thread (w : World) :
  rejected (app w) = false ->
  Forall (made_before (Date_now env (clock_reads w))) (chatHistory (app w)) ->
  (forall j : nat, (clock_reads w < j)%nat ->
     Date_now env (clock_reads w) <= Date_now env j) ->
  (sendMessageStream env (requests w) (userInput (app w)) = Rejects ->
   chatHistory (app (final (handleSendMessage env w)))
   = chatHistory (app w) ++ [userMessage_of env w])
  /\ (forall rs,
      sendMessageStream env (requests w) (userInput (app w)) = Resolves rs ->
      ending rs = Raises ->
      chatHistory (app (final (handleSendMessage env w)))
      = chatHistory (app w) ++ [userMessage_of env w]
      \/ chatHistory (app (final (handleSendMessage env w)))
         = chatHistory (app w)
           ++ [userMessage_of env w;
               {| id := modelMessageId_of env w; role := model;
                  text := JS.concat (map text_of (chunks rs)) |}]).
Proof.
  intros Hacc Hbefore Hclock.
  set (H := chatHistory (app w)). set (u := userMessage_of env w).
  assert (Hu : Forall (made_before (Date_now env (clock_reads w) + 1)) (H ++ [u])).
  { apply Forall_app. split.
    - eapply Forall_impl; [exact Hbefore|]. intros m. apply made_before_mono. lia.
    - apply Forall_singleton. eexists. split; [reflexivity | lia]. }
  assert (Hkeep : forall k, (clock_reads w < k)%nat ->
            surviving env k (H ++ [u]) = H ++ [u]).
  { intros k Hk. apply surviving_keeps. intros msg j Hmsg Hj Heq.
    rewrite Forall_forall in Hu. destruct (Hu msg Hmsg) as (z & Hz & Hlt).
    rewrite Hz in Heq. apply toString_inj in Heq.
    pose proof (Hclock j ltac:(lia)). lia. }
  split.
  - intros Hsend. rewrite run_send_rejects by done. cbn [final].
    unfold idle. cbn [app put_cell]. rewrite app_filtered.
    cbn [chatHistory with_chatHistory with_isLoading].
    change (chatHistory (app (requested (accepted env w)))) with (H ++ [u]).
    apply Hkeep. simpl. lia.
  - intros rs Hsend Hend.
    set (p := {| id := modelMessageId_of env w; role := model;
                 text := JS.concat (map text_of (chunks rs)) |}).
    assert (Hs : chatHistory (app (streamed env (chunks rs) w)) = (H ++ [u]) ++ [p]).
    { unfold streamed.
      apply (after_chunks_fresh env _ ""%string _ _ (H ++ [u])).
      - rewrite placed_history. by rewrite <- app_assoc.
      - apply Forall_forall. intros msg Hmsg Heq.
        rewrite Forall_forall in Hu. destruct (Hu msg Hmsg) as (z & Hz & Hlt).
        rewrite Hz in Heq. apply toString_inj in Heq.
        pose proof (Hclock (S (clock_reads w)) ltac:(lia)). lia. }
    assert (Hfinal : exists k,
              chatHistory (app (final (handleSendMessage env w)))
              = (H ++ [u]) ++ surviving env k [p]).
    { rewrite (run_stream_raises env w rs) by done.
      cbn [final]. unfold idle. cbn [app put_cell]. rewrite app_filtered.
      cbn [chatHistory with_chatHistory with_isLoading].
      rewrite Hs, surviving_app, Hkeep; [by eexists|].
      unfold streamed. rewrite clock_reads_after_chunks. simpl. lia. }
    destruct Hfinal as [k ->]. simpl. destruct (String.eqb _ _).
    + left. by rewrite app_nil_r.
    + right. by rewrite <- app_assoc.
Qed.

End KeysAndFailure.

(** ** The form during the greeting *)

Section GreetingForm.

Variable env : Env.

Lemma app_after_greet mid cur chars w :
  app (after_greet env mid cur chars w)
  = with_chatHistory (chatHistory (app (after_greet env mid cur chars w))) (app w).
Proof.
  revert cur w. induction chars as [|c chars IH]; intros cur w; simpl.
  - by destruct (app w).
  - by rewrite IH.
Qed.

Lemma requests_after_greet mid cur chars w :
  requests (after_greet env mid cur chars w) = requests w.
Proof.
  revert cur w. induction chars as [|c chars IH]; intros cur w; simpl; [done|].
  by rewrite IH.
Qed.

Lemma elem_of_greet_commits mid cur chars w w' :
  w' ∈ greet_commits env mid cur chars w ->
  exists n, w' = after_greet env mid cur (take n chars) w.
Proof.
  intros Hin. apply list_elem_of_lookup in Hin as [n Hn].
  assert (n < length chars)%nat as Hlt.
  { rewrite <- (length_greet_commits env mid cur chars w). by eapply lookup_lt_Some. }
  rewrite lookup_greet_commits in Hn by done. exists (S n). congruence.
Qed.

Lemma greeting_world_after_greet c chars w :
  greeting_world w (greeted env c chars w).
Proof.
  unfold greeting_world, greeted. rewrite app_after_greet, requests_after_greet.
  split; [done|]. split; [done|]. eexists. split.
  - cbn [chatHistory with_chatHistory].
    by apply (after_greet_history env _ ""%string).
  - reflexivity.
Qed.

End GreetingForm.

Lemma showLoadingDots_empty (s : AppState) :
  chatHistory s = [] -> showLoadingDots s = false.
Proof.
  intros Hs. unfold showLoadingDots. rewrite Hs. simpl.
  by rewrite andb_false_r.
Qed.

Lemma showLoadingDots_greeting (w wi : World) :
  greeting_world w wi -> showLoadingDots (app wi) = false.
Proof.
  intros (_ & _ & msg & Hh & Hr).
  rewrite (showLoadingDots_last _ [] msg Hh), Hr. apply andb_false_r.
Qed.

Section GreetingTheorem.

Variable env : Env.

Lemma greeting_world_commits c chars w wi :
  wi ∈ opened env c w :: greet_commits env (greeting_id env w) "" chars (opened env c w) ->
  greeting_world w wi.
Proof.
  intros Hin. apply elem_of_cons in Hin as [-> | Hin].
  - apply (greeting_world_after_greet env c [] w).
  - apply elem_of_greet_commits in Hin as [n ->].
    apply (greeting_world_after_greet env c (take n chars) w).
Qed.

(** X6: when the session is created and the thread starts empty, the
    states of [initChat] are the start, the state with the session stored,
    the state with the busy flag set, at least 37 states of the greeting,
    and the last state.  From the busy flag on until the last state the
    input field and the send button are disabled and a submission does
    nothing; in no state is the loading indicator shown, and no request is
    sent to the service; in the last state the input field is enabled. *)
Theorem greeting_blocks_form (w : World) (c : Chat) :
  chats_create env = Some c ->
  chatHistory (app w) = [] ->
  exists w1 w2 greeting wl,
    states (initChat env) w = w :: w1 :: w2 :: greeting ++ [wl]
    /\ (37 <= length greeting)%nat
    /\ Forall (fun wi =>
                 isLoading (app wi) = true
                 /\ inputDisabled (app wi) = true
                 /\ buttonDisabled (app wi) = true
                 /\ forall env', handleSendMessage env' wi = nothing_done wi)
              (w2 :: greeting)
    /\ Forall (fun wi =>
                 showLoadingDots (app wi) = false /\ requests wi = requests w)
              (states (initChat env) w)
    /\ inputDisabled (app wl) = false.
Proof.
  intros Hc Hnil.
  exists (connected env c w), (loading env c w).
  exists (opened env c w
          :: greet_commits env (greeting_id env w) "" (JS.code_points welcomeMessage)
               (opened env c w)),
         (idle env (greeted env c (JS.code_points welcomeMessage) w)).
  unfold states. rewrite (run_initChat_created env c) by done.
  cbn [commits].
  assert (Hlen : length (JS.code_points welcomeMessage) = 37%nat) by reflexivity.
  revert Hlen. generalize (JS.code_points welcomeMessage). intros chars Hlen.
  split; [done|].
  split; [cbn [length]; rewrite length_greet_commits; lia|].
  assert (Hg : forall wi,
            wi ∈ opened env c w
                 :: greet_commits env (greeting_id env w) "" chars (opened env c w) ->
            greeting_world w wi) by apply greeting_world_commits.
  split; [|split].
  - apply Forall_cons_2; [by apply busy_world_blocks|].
    apply Forall_forall. intros wi Hwi.
    apply busy_world_blocks. by destruct (Hg wi Hwi).
  - apply Forall_cons_2; [split; [by apply showLoadingDots_empty | done]|].
    apply Forall_cons_2; [split; [by apply showLoadingDots_empty | done]|].
    apply Forall_cons_2; [split; [by apply showLoadingDots_empty | done]|].
    rewrite app_comm_cons. apply Forall_app. split.
    + apply Forall_forall. intros wi Hwi. split.
      * by apply (showLoadingDots_greeting w), Hg.
      * by destruct (Hg wi Hwi) as (_ & ? & _).
    + apply Forall_singleton. split; [done|].
      destruct (greeting_world_after_greet env c chars w) as (_ & Hr & _).
      exact Hr.
  - unfold inputDisabled, no_chat, idle, greeted. cbn [app put_cell].
    by rewrite app_after_greet.
Qed.

End GreetingTheorem.

(** ** Where the scroll position goes *)

Section Scroll.

Variable env : Env.

Lemma commit_scroll_kept_or_bottom wa wb :
  commit_of env (fun _ _ => True) wa wb -> scroll_kept_or_bottom env wa wb.
Proof.
  intros [f w' [Happ Hc] Hf | h w' [Happ Hc] _];
    unfold scroll_kept_or_bottom, scroll_position, scrolled_to_bottom; simpl;
    rewrite Hc; destruct (container wa) as [d|]; simpl; auto.
  right. by eexists.
Qed.

(** X8: across every setter call of a form event or of [initChat], the
    scroll position stays where it was or goes to the bottom of the
    thread as laid out after the call; it never goes anywhere else. *)
Theorem scroll_moves_only_to_bottom (w : World) (ev : Event) :
  stepwise (scroll_kept_or_bottom env) w (commits (handle env ev w))
  /\ stepwise (scroll_kept_or_bottom env) w (commits (initChat env w)).
Proof.
  split.
  - apply (stepwise_impl (commit_of env (fun _ _ => True)) _ (fun _ => True));
      [|done|].
    + intros wa wb _ H. split; [by apply commit_scroll_kept_or_bottom | done].
    + destruct ev as [value|]; simpl.
      * split; [by apply commit_put_cell | done].
      * by apply stepwise_handleSendMessage.
  - apply (stepwise_impl (commit_of env (fun _ _ => True)) _ (fun _ => True));
      [|done|].
    + intros wa wb _ H. split; [by apply commit_scroll_kept_or_bottom | done].
    + by apply stepwise_initChat.
Qed.

End Scroll.

(** ** What a run depends on *)

Section Dependence.

Variables env env' : Env.
Hypothesis same_clock : forall k, Date_now env k = Date_now env' k.
Hypothesis same_layout : forall s, layoutHeight env s = layoutHeight env' s.

Lemma put_cell_ext f w : put_cell env f w = put_cell env' f w.
Proof. unfold put_cell, layout. by rewrite same_layout. Qed.

Lemma put_history_ext h w : put_history env h w = put_history env' h w.
Proof. unfold put_history, layout. by rewrite same_layout. Qed.

Lemma update_history_ext updater w :
  update_history env updater w = update_history env' updater w.
Proof. apply put_history_ext. Qed.

Lemma after_chunks_ext mid cur cs w :
  after_chunks env mid cur cs w = after_chunks env' mid cur cs w.
Proof.
  revert cur w. induction cs as [|c cs IH]; intros cur w; simpl; [done|].
  by rewrite update_history_ext, IH.
Qed.

Lemma chunk_commits_ext mid cur cs w :
  chunk_commits env mid cur cs w = chunk_commits env' mid cur cs w.
Proof.
  revert cur w. induction cs as [|c cs IH]; intros cur w; simpl; [done|].
  by rewrite update_history_ext, IH.
Qed.

Lemma after_greet_ext mid cur chars w :
  after_greet env mid cur chars w = after_greet env' mid cur chars w.
Proof.
  revert cur w. induction chars as [|c chars IH]; intros cur w; simpl; [done|].
  by rewrite update_history_ext, IH.
Qed.

Lemma greet_commits_ext mid cur chars w :
  greet_commits env mid cur chars w = greet_commits env' mid cur chars w.
Proof.
  revert cur w. induction chars as [|c chars IH]; intros cur w; simpl; [done|].
  by rewrite update_history_ext, IH.
Qed.

Lemma surviving_ext k h : surviving env k h = surviving env' k h.
Proof.
  revert k. induction h as [|msg h IH]; intros k; simpl; [done|].
  by rewrite same_clock, IH.
Qed.

Lemma accepted_ext w : accepted env w = accepted env' w.
Proof.
  unfold accepted, busy, cleared, posted, userMessage_of.
  by rewrite same_clock, update_history_ext, !put_cell_ext.
Qed.

Lemma placed_ext w : placed env w = placed env' w.
Proof.
  unfold placed, placeholder_of, modelMessageId_of.
  by rewrite same_clock, accepted_ext, update_history_ext.
Qed.

Lemma filtered_ext w : filtered env w = filtered env' w.
Proof.
  unfold filtered, failed.
  by rewrite surviving_ext, put_cell_ext, put_history_ext.
Qed.

Lemma posted_ext w : posted env w = posted env' w.
Proof.
  unfold posted, userMessage_of. by rewrite same_clock, update_history_ext.
Qed.

Lemma cleared_ext w : cleared env w = cleared env' w.
Proof. unfold cleared. by rewrite posted_ext, put_cell_ext. Qed.

Lemma busy_ext w : busy env w = busy env' w.
Proof. unfold busy. by rewrite cleared_ext, put_cell_ext. Qed.

Lemma streamed_ext cs w : streamed env cs w = streamed env' cs w.
Proof.
  unfold streamed, modelMessageId_of.
  by rewrite same_clock, placed_ext, after_chunks_ext.
Qed.

Lemma idle_ext w : idle env w = idle env' w.
Proof. apply put_cell_ext. Qed.

Lemma failed_ext w : failed env w = failed env' w.
Proof. apply put_cell_ext. Qed.

(** X9: [handleSendMessage] depends on the service only through the
    answer to one request, the one numbered [requests w] for the input as
    typed (untrimmed): two environments with the same clock and layout
    that agree on this answer give the same run, whatever else their
    services answer and whether or not they can create sessions. *)
Theorem service_consulted_once (w : World) :
  sendMessageStream env (requests w) (userInput (app w))
  = sendMessageStream env' (requests w) (userInput (app w)) ->
  handleSendMessage env w = handleSendMessage env' w.
Proof.
  intros Hsame. destruct (rejected (app w)) eqn:Hacc.
  { by rewrite !run_rejected. }
  destruct (sendMessageStream env (requests w) (userInput (app w)))
    as [|rs] eqn:Hsend.
  - rewrite (run_send_rejects env), (run_send_rejects env') by done.
    by rewrite posted_ext, cleared_ext, busy_ext, accepted_ext, failed_ext,
               filtered_ext, idle_ext.
  - destruct (ending rs) eqn:Hend.
    + rewrite (run_stream_completes env w rs), (run_stream_completes env' w rs)
        by done.
      unfold modelMessageId_of.
      by rewrite posted_ext, cleared_ext, busy_ext, accepted_ext, placed_ext,
                 streamed_ext, idle_ext, chunk_commits_ext, same_clock.
    + rewrite (run_stream_raises env w rs), (run_stream_raises env' w rs)
        by done.
      unfold modelMessageId_of.
      by rewrite posted_ext, cleared_ext, busy_ext, accepted_ext, placed_ext,
                 streamed_ext, failed_ext, filtered_ext, idle_ext,
                 chunk_commits_ext, same_clock.
Qed.

(** X10: [initChat] never consults [sendMessageStream]: two environments
    with the same clock and layout that agree on the creation of the
    session give the same run.  The greeting is produced locally. *)
Theorem initChat_ignores_service (w : World) :
  chats_create env = chats_create env' ->
  initChat env w = initChat env' w.
Proof.
  intros Hsame. destruct (chats_create env) as [c|] eqn:Hc.
  - rewrite (run_initChat_created env c), (run_initChat_created env' c) by done.
    generalize (JS.code_points welcomeMessage). intros chars.
    unfold greeted, opened, loading, connected, greeting_id.
    by rewrite same_clock, !put_cell_ext, update_history_ext, after_greet_ext,
               idle_ext, greet_commits_ext.
  - rewrite (run_initChat_throws env), (run_initChat_throws env') by done.
    unfold init_failed. by rewrite put_cell_ext, idle_ext.
Qed.

End Dependence.

(** ** From the greeting to the first reply *)

Section FirstExchange.

Variable env : Env.




End FirstExchange.

(** ** These theorems at concrete runs *)


Lemma demo_ready_keys :
  NoDup (messageKeys (app Demo.ready))
  /\ Forall (made_before (Demo.running_clock 1)) (chatHistory (app Demo.ready)).
Proof.
  split.
  - apply NoDup_singleton.
  - apply Forall_singleton. exists 1699999990000. split; reflexivity.
Qed.

Lemma message_keys_unique_witness :
  NoDup (messageKeys (app (final (handleSendMessage Demo.env_ok Demo.ready)))).
Proof.
  refine (proj1 (message_keys_unique Demo.env_ok Demo.ready _
                   (proj1 demo_ready_keys) (proj2 demo_ready_keys) _ _)).
  - vm_compute. discriminate.
  - apply list_elem_of_lookup. exists 8%nat. reflexivity.
Defined.

Lemma cycle_blocks_submissions_witness :
  exists w1 w2 middle wl,
    states (handleSendMessage Demo.env_rejecting) Demo.ready
    = Demo.ready :: w1 :: w2 :: middle ++ [wl]
    /\ Forall (fun wi => forall env', handleSendMessage env' wi = nothing_done wi)
              middle.
Proof.
  destruct (cycle_blocks_submissions Demo.env_rejecting Demo.ready eq_refl)
    as (w1 & w2 & middle & wl & Hst & _ & _ & Hmid & _).
  exists w1, w2, middle, wl. split; [exact Hst|].
  eapply Forall_impl; [exact Hmid|]. intros wi H. apply H.
Defined.

Lemma loading_indicator_witness :
  (exists w3 w4,
      states (handleSendMessage Demo.env_ok) Demo.ready !! 3%nat = Some w3
      /\ states (handleSendMessage Demo.env_ok) Demo.ready !! 4%nat = Some w4
      /\ showLoadingDots (app w3) = true
      /\ showLoadingDots (app w4) = true)
  /\ showLoadingDots (app (final (handleSendMessage Demo.env_ok Demo.ready))) = false.
Proof.
  destruct (loading_indicator Demo.env_ok Demo.ready DemoMore.reply eq_refl eq_refl)
    as (H1 & _ & H2).
  split; [exact H1 | exact H2].
Defined.

Lemma greeting_blocks_form_witness :
  exists w1 w2 greeting wl,
    states (initChat Demo.env_ok) DemoMore.fresh
    = DemoMore.fresh :: w1 :: w2 :: greeting ++ [wl]
    /\ inputDisabled (app wl) = false.
Proof.
  destruct (greeting_blocks_form Demo.env_ok DemoMore.fresh Demo.session
              eq_refl eq_refl)
    as (w1 & w2 & greeting & wl & Hst & _ & _ & _ & Hwl).
  by exists w1, w2, greeting, wl.
Defined.

Lemma failure_keeps_thread_witness :
  chatHistory
    (app (final (handleSendMessage (Demo.env_raising Demo.running_clock) Demo.ready)))
  = [Demo.greeting; {| id := "1700000000040"; role := user; text := "Hi" |}]
  \/ chatHistory
       (app (final (handleSendMessage (Demo.env_raising Demo.running_clock) Demo.ready)))
     = [Demo.greeting;
        {| id := "1700000000040"; role := user; text := "Hi" |};
        {| id := "1700000000081"; role := model; text := "Hel" |}].
Proof.
  refine (proj2 (failure_keeps_thread (Demo.env_raising Demo.running_clock)
                   Demo.ready eq_refl (proj2 demo_ready_keys) _)
                {| chunks := [Demo.chunk "Hel"]; ending := Raises |}
                eq_refl eq_refl).
  intros j Hj. simpl. unfold Demo.running_clock. lia.
Defined.

Lemma service_consulted_once_witness :
  handleSendMessage Demo.env_ok Demo.ready
  = handleSendMessage DemoMore.env_answering_once Demo.ready.
Proof.
  apply service_consulted_once; reflexivity.
Defined.

Lemma initChat_ignores_service_witness :
  initChat Demo.env_ok DemoMore.fresh = initChat Demo.env_rejecting DemoMore.fresh.
Proof.
  apply initChat_ignores_service; reflexivity.
Defined.

